(** * The Twitter content handler: thread resolution and rendering

    A shallow embedding of the content handler that turns a tweet URL into
    an HTML article ([TwitterHandler.preHandle] and its helpers), with the
    properties of its URL matcher, its age-based routing, its puppeteer
    fallback and its HTML rendering.

    Conventions.
    - A JavaScript string is a [list ascii]: a sequence of 8-bit code units
      (the UTF-8 bytes of the text).  Literals are written [L "..."].
    - The outside world (the REST API, the headless browser, the clock) is a
      record of oracles, [World]; calls to it are recorded in a trace of
      [event]s, and a call that throws returns its exception in the error
      monad [M]. *)

From Stdlib Require Import Ascii String List ZArith Bool Arith Lia.
Import ListNotations.

Local Open Scope list_scope.

(** ** Strings *)

Definition str := list ascii.

Definition L (s : string) : str := list_ascii_of_string s.

(** The double-quote character, U+0022. *)
Definition dquote : ascii := ascii_of_nat 34.
Definition DQ : str := [dquote].

(** The line feed, U+000A, and the carriage return, U+000D. *)
Definition LF : ascii := ascii_of_nat 10.
Definition CR : ascii := ascii_of_nat 13.

Definition str_eqb (a b : str) : bool :=
  if list_eq_dec ascii_dec a b then true else false.

(** JavaScript truthiness of a string: the empty string is falsy. *)
Definition truthy (s : str) : bool :=
  match s with [] => false | _ :: _ => true end.

(** [strip_prefix p s] is [Some rest] when [s = p ++ rest]. *)
Fixpoint strip_prefix (p s : str) : option str :=
  match p with
  | [] => Some s
  | a :: p' =>
      match s with
      | [] => None
      | b :: s' => if Ascii.eqb a b then strip_prefix p' s' else None
      end
  end.

(** [String.prototype.indexOf]: the least index at which [pat] occurs. *)
Fixpoint indexOf (pat text : str) : option nat :=
  match strip_prefix pat text with
  | Some _ => Some 0
  | None =>
      match text with
      | [] => None
      | _ :: text' => option_map S (indexOf pat text')
      end
  end.

(** [String.prototype.includes]. *)
Definition includes (pat text : str) : bool :=
  match indexOf pat text with Some _ => true | None => false end.

Fixpoint takeWhile (p : ascii -> bool) (s : str) : str :=
  match s with
  | a :: s' => if p a then a :: takeWhile p s' else []
  | [] => []
  end.

Fixpoint dropWhile (p : ascii -> bool) (s : str) : str :=
  match s with
  | a :: s' => if p a then dropWhile p s' else s
  | [] => []
  end.

(** ** Regular expressions

    The fragment of ECMAScript regular expressions that [TWITTER_URL_MATCH]
    is written in: literals, character classes, concatenation, the greedy
    optional non-capturing group [(?:r)?], the greedy repetitions [c*] and
    [c+] of a character class, and numbered capture groups.  The matcher is
    the backtracking matcher of the language: alternatives are tried in
    priority order and the first complete match wins. *)

Inductive regex : Type :=
| Lit (l : str)
| Class (p : ascii -> bool)
| Cat (r1 r2 : regex)
| Maybe (r : regex)
| Many (p : ascii -> bool)
| Many1 (p : ascii -> bool)
| Capture (n : nat) (r : regex).

(** Captures, most recent first. *)
Definition caps := list (nat * str).

Definition set_cap (n : nat) (v : str) (c : caps) : caps := (n, v) :: c.

Fixpoint get_cap (n : nat) (c : caps) : option str :=
  match c with
  | [] => None
  | (m, v) :: c' => if Nat.eqb n m then Some v else get_cap n c'
  end.

(** Greedy repetition of a class: the longest run first, then shorter ones. *)
Fixpoint many (p : ascii -> bool) (s : str) (k : str -> option caps)
  : option caps :=
  match s with
  | a :: s' =>
      if p a then
        match many p s' k with
        | Some r => Some r
        | None => k s
        end
      else k s
  | [] => k s
  end.

Fixpoint rmatch (r : regex) (s : str) (c : caps)
    (k : str -> caps -> option caps) : option caps :=
  match r with
  | Lit l =>
      match strip_prefix l s with
      | Some s' => k s' c
      | None => None
      end
  | Class p =>
      match s with
      | a :: s' => if p a then k s' c else None
      | [] => None
      end
  | Cat r1 r2 => rmatch r1 s c (fun s1 c1 => rmatch r2 s1 c1 k)
  | Maybe r1 =>
      match rmatch r1 s c k with
      | Some x => Some x
      | None => k s c
      end
  | Many p => many p s (fun s' => k s' c)
  | Many1 p =>
      match s with
      | a :: s' => if p a then many p s' (fun s1 => k s1 c) else None
      | [] => None
      end
  | Capture n r1 =>
      rmatch r1 s c
        (fun s1 c1 => k s1 (set_cap n (firstn (length s - length s1) s) c1))
  end.

(** [RegExp.prototype.exec] for a regular expression without flags: the
    match is attempted at index 0, then 1, ... up to the end of the input. *)
Fixpoint regexp_exec (r : regex) (s : str) : option caps :=
  match rmatch r s [] (fun _ c => Some c) with
  | Some c => Some c
  | None =>
      match s with
      | [] => None
      | _ :: s' => regexp_exec r s'
      end
  end.

(** [\w], [\d] and [.] *)
Definition in_range (lo hi : nat) (a : ascii) : bool :=
  let n := nat_of_ascii a in (lo <=? n) && (n <=? hi).

Definition is_digit (a : ascii) : bool := in_range 48 57 a.

Definition is_word (a : ascii) : bool :=
  in_range 65 90 a || in_range 97 122 a || is_digit a || Ascii.eqb a "_"%char.

Definition is_dot (a : ascii) : bool :=
  negb (Ascii.eqb a LF || Ascii.eqb a CR).

(** The pattern of the source, piece by piece: [twitter\.com\/], the
    optional [#!\/], group 1 [\w+], [\/status], the optional [es], [\/],
    group 2 [\d+], and an optional last group made of [\/] followed by any
    number of [.] characters.  The pattern is not anchored. *)
Definition TWITTER_URL_MATCH : regex :=
  Cat (Lit (L "twitter.com/"))
 (Cat (Maybe (Lit (L "#!/")))
 (Cat (Capture 1 (Many1 is_word))
 (Cat (Lit (L "/status"))
 (Cat (Maybe (Lit (L "es")))
 (Cat (Lit (L "/"))
 (Cat (Capture 2 (Many1 is_digit))
      (Maybe (Cat (Lit (L "/")) (Many is_dot))))))))).

Definition MAX_THREAD_DEPTH : nat := 100.

(** [url.toString().match(TWITTER_URL_MATCH)?.[2]] *)
Definition tweetIdFromStatusUrl (url : str) : option str :=
  match regexp_exec TWITTER_URL_MATCH url with
  | Some m => get_cap 2 m
  | None => None
  end.

(** [TWITTER_URL_MATCH.test(url)] *)
Definition regexp_test (r : regex) (s : str) : bool :=
  match regexp_exec r s with Some _ => true | None => false end.

(** ** More of the string library *)

(** [GetSubstitution] of the language for a pattern that is a string (no
    capture groups): in the replacement text [$$] stands for a dollar sign,
    [$&] for the matched text, [$`] for the text before the match and [$']
    for the text after it; any other character, also a dollar sign followed
    by something else, stands for itself. *)
Fixpoint getSubstitution (matched before after templ : str) : str :=
  match templ with
  | [] => []
  | c :: t =>
      if Ascii.eqb c "$"%char then
        match t with
        | [] => [c]
        | d :: t' =>
            if Ascii.eqb d "$"%char then "$"%char :: getSubstitution matched before after t'
            else if Ascii.eqb d "&"%char then matched ++ getSubstitution matched before after t'
            else if Ascii.eqb d "`"%char then before ++ getSubstitution matched before after t'
            else if Ascii.eqb d "'"%char then after ++ getSubstitution matched before after t'
            else c :: getSubstitution matched before after t
        end
      else c :: getSubstitution matched before after t
  end.

(** [text.replace(pat, repl)] with a string pattern: only the first
    occurrence of [pat] is replaced. *)
Definition js_replace (text pat repl : str) : str :=
  match indexOf pat text with
  | None => text
  | Some i =>
      let before := firstn i text in
      let after := skipn (i + length pat) text in
      before ++ getSubstitution pat before after repl ++ after
  end.

(** [s.split(sep)] for a separator of one character. *)
Fixpoint split (sep : ascii) (s : str) : list str :=
  match s with
  | [] => [[]]
  | a :: s' =>
      if Ascii.eqb a sep then [] :: split sep s'
      else
        match split sep s' with
        | h :: t => (a :: h) :: t
        | [] => [[a]]
        end
  end.

(** [l.join(sep)] *)
Fixpoint join (sep : str) (l : list str) : str :=
  match l with
  | [] => []
  | [x] => x
  | x :: l' => x ++ sep ++ join sep l'
  end.

Definition NL : str := [LF].
Definition spaces (n : nat) : str := repeat " "%char n.

(** [_.escape] of underscore: each of the six characters of its escape map
    is replaced by its entity, every other character is kept. *)
Definition escape_char (a : ascii) : str :=
  if Ascii.eqb a "&"%char then L "&amp;"
  else if Ascii.eqb a "<"%char then L "&lt;"
  else if Ascii.eqb a ">"%char then L "&gt;"
  else if Ascii.eqb a dquote then L "&quot;"
  else if Ascii.eqb a "'"%char then L "&#x27;"
  else if Ascii.eqb a "`"%char then L "&#x60;"
  else [a].

Definition escape (s : str) : str := flat_map escape_char s.

(** ** Data model: the interfaces of the handler *)

Module User.
Record t : Type := mk {
  id : str;
  name : str;
  profile_image_url : str;
  username : str
}.
(** The assignment [u.id = v]. *)
Definition set_id (v : str) (u : t) : t :=
  mk v (name u) (profile_image_url u) (username u).
End User.

Module Media.
Record t : Type := mk {
  preview_image_url : str;
  type : str;
  url : str;
  media_key : str
}.
End Media.

Module TweetIncludes.
Record t : Type := mk {
  users : list User.t;
  media : option (list Media.t)
}.
End TweetIncludes.

Module TweetMeta.
Record t : Type := mk { result_count : Z }.
End TweetMeta.

Module UrlObj.
Record t : Type := mk {
  url : str;
  expanded_url : str;
  display_url : str
}.
End UrlObj.

Module RefTweet.
Record t : Type := mk { type : str; id : str }.
End RefTweet.

Module TweetData.
(** [entities] is [None] when the post has no [entities] or no
    [entities.urls]; [attachments] is [None] when it has no [attachments]
    or no [attachments.media_keys], and holds the media keys otherwise. *)
Record t : Type := mk {
  author_id : str;
  text : str;
  entities : option (list UrlObj.t);
  created_at : str;
  referenced_tweets : list RefTweet.t;
  conversation_id : str;
  attachments : option (list str)
}.
End TweetData.

Module Tweet.
Record t : Type := mk {
  data : TweetData.t;
  includes : TweetIncludes.t
}.
End Tweet.

Module Tweets.
Record t : Type := mk {
  data : list TweetData.t;
  includes : TweetIncludes.t;
  meta : TweetMeta.t
}.
End Tweets.

Record PreHandleResult : Type := mkResult {
  content : str;
  url : str;
  title : str
}.

(** ** The rendered page, as the in-page script sees it *)

Module Dom.
(** The first child of a [div[dir=auto]] node. *)
Record Child : Type := mkChild { tagName : str; innerHTML : str }.
Record Div : Type := mkDiv { children0 : option Child }.
(** The parent of a [time] node; [href] is [getAttribute('href')]. *)
Record Element : Type := mkElement { el_tagName : str; href : option str }.
Record Time : Type := mkTime { parentElement : option Element }.
(** [timeNodes clicked] is [document.querySelectorAll('time')] once the
    script has, or has not, clicked on a Show replies button. *)
Record Document : Type := mkDocument {
  autoDivs : list Div;
  timeNodes : bool -> list Time
}.
End Dom.

(** ** Effects: exceptions and the trace of outside calls *)

Inductive exn : Type :=
| JsError (message : str)      (* [new Error(message)] thrown by the handler *)
| TypeError (what : str)       (* a property read on [undefined] *)
| External (what : str).       (* thrown by axios or by puppeteer *)

Inductive event : Type :=
| GetTweetById (id : str)
| GetTweetThread (conversationId : str)
| GetTweetsByIds (ids : list str)
| Launch
| NewPage
| Goto (pageURL : str)
| WaitFor (ms : Z)
| Evaluate
| ConsoleLog (error : exn)
| BrowserClose.

(** A computation yields the trace of the calls it made and either the
    exception it threw or its value. *)
Definition M (A : Type) : Type := (list event * (exn + A))%type.

Definition ret {A : Type} (a : A) : M A := ([], inr a).

Definition throw {A : Type} (e : exn) : M A := ([], inl e).

Definition bind {A B : Type} (m : M A) (f : A -> M B) : M B :=
  match m with
  | (t, inl e) => (t, inl e)
  | (t, inr a) => let (t', r) := f a in (t ++ t', r)
  end.

Notation "x <- m ;; k" := (bind m (fun x => k))
  (at level 61, m at next level, right associativity).
Notation "m ;;; k" := (bind m (fun _ => k))
  (at level 61, right associativity).

(** An outside call: the event, then what the world answers. *)
Definition call {A : Type} (ev : event) (answer : exn + A) : M A := ([ev], answer).

(** An outside call that returns nothing, and may throw. *)
Definition call_void (ev : event) (failure : option exn) : M unit :=
  call ev (match failure with Some e => inl e | None => inr tt end).

(** [try { body } catch (error) { handler(error) }] *)
Definition try_catch {A : Type} (body : M A) (handler : exn -> M A) : M A :=
  match body with
  | (t, inl e) => let (t', r) := handler e in (t ++ t', r)
  | (t, inr a) => (t, inr a)
  end.

(** [try { body } finally { cleanup }]: the cleanup runs on every path, and
    an exception of the cleanup replaces the outcome of the body. *)
Definition finally {A : Type} (body : M A) (cleanup : M unit) : M A :=
  let (t, r) := body in
  match cleanup with
  | (t', inl e) => (t ++ t', inl e)
  | (t', inr _) => (t ++ t', r)
  end.

Definition trace {A : Type} (m : M A) : list event := fst m.
Definition outcome {A : Type} (m : M A) : exn + A := snd m.

(** ** The outside world *)

Record World : Type := mkWorld {
  (** [process.env.TWITTER_BEARER_TOKEN] *)
  TWITTER_BEARER_TOKEN : option str;
  (** [Date.now()], in milliseconds *)
  Date_now : Z;
  (** [new Date(s).getTime()]; [None] is NaN, the time of an invalid date *)
  Date_getTime : str -> option Z;
  (** the luxon rendering of a timestamp, [formatTimestamp] *)
  formatTimestamp : str -> str;
  (** the answers of the three endpoints to [axios.get] *)
  api_tweet : str -> exn + Tweet.t;
  api_search : str -> exn + Tweets.t;
  api_tweets : list str -> exn + Tweets.t;
  (** puppeteer: [Some e] when the call throws [e] *)
  puppeteer_launch : option exn;
  browser_newPage : option exn;
  page_goto : str -> option exn;
  page_evaluate : option exn;
  page_document : Dom.Document;
  browser_close : option exn
}.

Definition has_token (w : World) : bool :=
  match TWITTER_BEARER_TOKEN w with
  | Some tok => truthy tok
  | None => false
  end.

Definition no_token : exn := JsError (L "No Twitter bearer token found").

(** ** The fetchers *)

Definition getTweetThread (w : World) (conversationId : str) : M Tweets.t :=
  if negb (has_token w) then throw no_token
  else call (GetTweetThread conversationId) (api_search w conversationId).

Definition getTweetById (w : World) (id : str) : M Tweet.t :=
  if negb (has_token w) then throw no_token
  else call (GetTweetById id) (api_tweet w id).

Definition getTweetsByIds (w : World) (ids : list str) : M Tweets.t :=
  if negb (has_token w) then throw no_token
  else call (GetTweetsByIds ids) (api_tweets w ids).

Definition titleForAuthor (author : User.t) : str :=
  User.name author ++ L " on Twitter".

(** [response.includes.media?.filter(m => t.attachments?.media_keys?.includes(m.media_key))] *)
Definition media_of (response : Tweets.t) (t : TweetData.t) : option (list Media.t) :=
  option_map
    (filter (fun m =>
       match TweetData.attachments t with
       | Some keys => existsb (str_eqb (Media.media_key m)) keys
       | None => false
       end))
    (TweetIncludes.media (Tweets.includes response)).

Definition getTweetsFromResponse (response : Tweets.t) : list Tweet.t :=
  map (fun t =>
         Tweet.mk t
           (TweetIncludes.mk (TweetIncludes.users (Tweets.includes response))
                             (media_of response t)))
      (Tweets.data response).

(** ** The puppeteer fallback *)

(** The first [div[dir=auto]] whose first child is a SPAN reading
    Show replies. *)
Definition showRepliesButton (doc : Dom.Document) : option Dom.Div :=
  find (fun node =>
          match Dom.children0 node with
          | Some ch => str_eqb (Dom.innerHTML ch) (L "Show replies")
          | None => false
          end)
       (filter (fun node =>
                  match Dom.children0 node with
                  | Some ch => str_eqb (Dom.tagName ch) (L "SPAN")
                  | None => false
                  end)
               (Dom.autoDivs doc)).

(** The body of the scanning loop for one [time] node: [Some id] when the
    node contributes [id], [None] when one of the four [continue]s is taken. *)
Definition time_node_id (node : Dom.Time) : option str :=
  match Dom.parentElement node with
  | None => None
  | Some timeContainerAnchor =>
      if str_eqb (Dom.el_tagName timeContainerAnchor) (L "SPAN") then None
      else
        match Dom.href timeContainerAnchor with
        | None => None
        | Some href =>
            if negb (truthy href) then None
            else
              match hd_error (rev (split "/"%char href)) with
              | None => None
              | Some id => if negb (truthy id) then None else Some id
              end
        end
  end.

(** [for (let i = 0; i < timeNodes.length && i < MAX_THREAD_DEPTH; i++)],
    with [rest] the nodes from index [i] on. *)
Fixpoint scan_loop (i : nat) (rest : list Dom.Time) (ids : list str) : list str :=
  match rest with
  | [] => ids
  | node :: rest' =>
      if i <? MAX_THREAD_DEPTH then
        match time_node_id node with
        | Some id => scan_loop (S i) rest' (ids ++ [id])
        | None => scan_loop (S i) rest' ids
        end
      else ids
  end.

(** The function passed to [page.evaluate]. *)
Definition in_page_script (doc : Dom.Document) : list str :=
  let clicked :=
    match showRepliesButton doc with Some _ => true | None => false end in
  scan_loop 0 (Dom.timeNodes doc clicked) [].

Definition getTweetIds (w : World) (tweetId : str) : M (list str) :=
  let pageURL := L "https://twitter.com/anyone/status/" ++ tweetId in
  call_void Launch (puppeteer_launch w) ;;;
  finally
    (try_catch
       (call_void NewPage (browser_newPage w) ;;;
        call_void (Goto pageURL) (page_goto w pageURL) ;;;
        call_void (WaitFor 4000) None ;;;
        call Evaluate
          (match page_evaluate w with
           | Some e => inl e
           | None => inr (in_page_script (page_document w))
           end))
       (fun error => call_void (ConsoleLog error) None ;;; ret []))
    (call_void BrowserClose (browser_close w)).

Definition getOldTweets (w : World) (conversationId : str) : M (list Tweet.t) :=
  tweetIds <- getTweetIds w conversationId ;;
  response <- getTweetsByIds w tweetIds ;;
  ret (getTweetsFromResponse response).

Definition getRecentTweets (w : World) (conversationId : str) : M (list Tweet.t) :=
  thread <- getTweetThread w conversationId ;;
  if (TweetMeta.result_count (Tweets.meta thread) =? 0)%Z then ret []
  else ret (rev (getTweetsFromResponse thread)).

(** ** The handler *)

(** [!!TWITTER_BEARER_TOKEN && TWITTER_URL_MATCH.test(url.toString())] *)
Definition shouldPreHandle (w : World) (url : str) : bool :=
  has_token w && regexp_test TWITTER_URL_MATCH url.

(** [users.filter((u) => (u.id = authorId))]: the callback assigns
    [authorId] to the [id] of the user it is given, and its value is the
    assigned string, which [filter] reads as a boolean.  The users are
    objects shared with [tweet.includes.users]: the result is the selected
    users together with the list as the assignments leave it. *)
Fixpoint author_filter (authorId : str) (users : list User.t)
  : list User.t * list User.t :=
  match users with
  | [] => ([], [])
  | u :: rest =>
      let u' := User.set_id authorId u in
      let (selected, rest') := author_filter authorId rest in
      ((if truthy (User.id u') then u' :: selected else selected), u' :: rest')
  end.

Definition SEVEN_DAYS : Z := 7 * 24 * 60 * 60 * 1000.

(** [new Date(created_at).getTime() < Date.now() - 7 * 24 * 60 * 60 * 1000];
    a comparison with NaN is false. *)
Definition older_than_7_days (w : World) (created_at : str) : bool :=
  match Date_getTime w created_at with
  | Some t => (t <? Date_now w - SEVEN_DAYS)%Z
  | None => false
  end.

(** The conditional that assembles [tweets]. *)
Definition thread_of (w : World) (tweet : Tweet.t) (conversationId : str)
  : M (list Tweet.t) :=
  if older_than_7_days w (TweetData.created_at (Tweet.data tweet)) then
    getOldTweets w conversationId
  else
    recent <- getRecentTweets w conversationId ;;
    ret (tweet :: recent).

(** The replacement text of an url entity. *)
Definition anchor (urlObj : UrlObj.t) : str :=
  L "<a href=" ++ DQ ++ UrlObj.expanded_url urlObj ++ DQ ++ L ">"
    ++ UrlObj.display_url urlObj ++ L "</a>".

(** The text of a post once its url entities are substituted. *)
Definition render_text (tweetData : TweetData.t) : str :=
  match TweetData.entities tweetData with
  | Some urls =>
      fold_left
        (fun text urlObj => js_replace text (UrlObj.url urlObj) (anchor urlObj))
        urls (TweetData.text tweetData)
  | None => TweetData.text tweetData
  end.

Definition media_html (url : str) (m : Media.t) : str :=
  let photo := str_eqb (Media.type m) (L "photo") in
  let linkUrl := if photo then Media.url m else url in
  let previewUrl := if photo then Media.url m else Media.preview_image_url m in
  L "<a class=" ++ DQ ++ L "media-link" ++ DQ ++ L " href=" ++ linkUrl ++ L ">" ++ NL
    ++ spaces 10 ++ L "<picture>" ++ NL
    ++ spaces 12 ++ L "<img class=" ++ DQ ++ L "tweet-img" ++ DQ ++ L " src="
    ++ previewUrl ++ L " />" ++ NL
    ++ spaces 10 ++ L "</picture>" ++ NL
    ++ spaces 10 ++ L "</a>".

Definition includesHtml (url : str) (tweet : Tweet.t) : str :=
  match TweetIncludes.media (Tweet.includes tweet) with
  | Some ms => join NL (map (media_html url) ms)
  | None => []
  end.

(** What one iteration of the rendering loop appends to [tweetsContent]. *)
Definition tweet_html (url : str) (tweet : Tweet.t) : str :=
  NL ++ spaces 6 ++ L "<p>" ++ render_text (Tweet.data tweet) ++ L "</p>" ++ NL
    ++ spaces 6 ++ includesHtml url tweet ++ NL
    ++ spaces 4.

Definition tweetsContent (url : str) (tweets : list Tweet.t) : str :=
  fold_left (fun acc tweet => acc ++ tweet_html url tweet) tweets [].

Definition tweetUrl (w : World) (url : str) (author : User.t)
    (tweetData : TweetData.t) : str :=
  NL ++ spaces 7 ++ L "— <a href=" ++ DQ ++ L "https://twitter.com/"
    ++ User.username author ++ DQ ++ L ">" ++ User.username author ++ L "</a> "
    ++ User.name author ++ L " <a href=" ++ DQ ++ url ++ DQ ++ L ">"
    ++ formatTimestamp w (TweetData.created_at tweetData) ++ L "</a>" ++ NL
    ++ spaces 4.

Definition meta_tag (property value : str) : str :=
  L "<meta property=" ++ DQ ++ property ++ DQ ++ L " content=" ++ DQ ++ value
    ++ DQ ++ L " />".

Definition render_content (authorImage title description body attribution : str)
  : str :=
  NL ++ spaces 4 ++ L "<head>" ++ NL
    ++ spaces 6 ++ meta_tag (L "og:image") authorImage ++ NL
    ++ spaces 6 ++ meta_tag (L "og:image:secure_url") authorImage ++ NL
    ++ spaces 6 ++ meta_tag (L "og:title") title ++ NL
    ++ spaces 6 ++ meta_tag (L "og:description") description ++ NL
    ++ spaces 4 ++ L "</head>" ++ NL
    ++ spaces 4 ++ L "<body>" ++ NL
    ++ spaces 6 ++ L "<div>" ++ NL
    ++ spaces 8 ++ body ++ NL
    ++ spaces 8 ++ attribution ++ NL
    ++ spaces 6 ++ L "</div>" ++ NL
    ++ spaces 4 ++ L "</body>".

(** The document built from the root post, its author and the thread. *)
Definition document_of (w : World) (url : str) (author : User.t)
    (tweetData : TweetData.t) (tweets : list Tweet.t) : str :=
  render_content
    (js_replace (User.profile_image_url author) (L "_normal") (L "_400x400"))
    (escape (titleForAuthor author))
    (escape (TweetData.text tweetData))
    (tweetsContent url tweets)
    (tweetUrl w url author tweetData).

Definition no_tweet_id : exn := JsError (L "could not find tweet id in url").

(** The root post: the post of the url or, when that post is a reply, the
    post its [conversation_id] names.  Yields the conversation id with it. *)
Definition fetch_root (w : World) (tweetId : str) : M (str * Tweet.t) :=
  tweet <- getTweetById w tweetId ;;
  let conversationId := TweetData.conversation_id (Tweet.data tweet) in
  if negb (str_eqb conversationId tweetId) then
    root <- getTweetById w conversationId ;;
    ret (conversationId, root)
  else ret (conversationId, tweet).

Definition preHandle (w : World) (url : str) : M PreHandleResult :=
  match tweetIdFromStatusUrl url with
  | None => throw no_tweet_id
  | Some tweetId =>
      if negb (truthy tweetId) then throw no_tweet_id
      else
        fetched <- fetch_root w tweetId ;;
        let (conversationId, fetchedTweet) := fetched in
        let tweetData := Tweet.data fetchedTweet in
        let authorId := TweetData.author_id tweetData in
        let (selected, users') :=
          author_filter authorId (TweetIncludes.users (Tweet.includes fetchedTweet)) in
        let tweet :=
          Tweet.mk tweetData
            (TweetIncludes.mk users' (TweetIncludes.media (Tweet.includes fetchedTweet))) in
        match selected with
        | [] => throw (TypeError (L "author"))
        | author :: _ =>
            tweets <- thread_of w tweet conversationId ;;
            ret (mkResult (document_of w url author tweetData tweets)
                          url
                          (escape (titleForAuthor author)))
        end
  end.

(** ** Specification predicates *)

(** What a regular expression matches, declaratively: [mt r s c s' c'] when
    [r] matches a prefix of [s] leaving [s'], and turns the captures [c]
    into [c']. *)
Inductive mt : regex -> str -> caps -> str -> caps -> Prop :=
| mt_lit l s c : mt (Lit l) (l ++ s) c s c
| mt_class p a s c : p a = true -> mt (Class p) (a :: s) c s c
| mt_cat r1 r2 s c s1 c1 s2 c2 :
    mt r1 s c s1 c1 -> mt r2 s1 c1 s2 c2 -> mt (Cat r1 r2) s c s2 c2
| mt_maybe_some r s c s' c' : mt r s c s' c' -> mt (Maybe r) s c s' c'
| mt_maybe_none r s c : mt (Maybe r) s c s c
| mt_many p w s c : forallb p w = true -> mt (Many p) (w ++ s) c s c
| mt_many1 p a w s c :
    p a = true -> forallb p w = true -> mt (Many1 p) (a :: w ++ s) c s c
| mt_capture n r s c s' c' :
    mt r s c s' c' ->
    mt (Capture n r) s c s' (set_cap n (firstn (length s - length s') s) c').

(** [url] holds a status link: after [before] come [twitter.com/], an
    optional [#!/], a user name, [/status] or [/statuses], a slash and the
    digits [id], followed by [rest]. *)
Definition status_url_at (url before id rest : str) : Prop :=
  exists hashbang user es,
    url = before ++ L "twitter.com/" ++ hashbang ++ user ++ L "/status"
                 ++ es ++ L "/" ++ id ++ rest
    /\ (hashbang = [] \/ hashbang = L "#!/")
    /\ user <> [] /\ forallb is_word user = true
    /\ (es = [] \/ es = L "es")
    /\ id <> [] /\ forallb is_digit id = true.

(** [url] matches the recognized pattern. *)
Definition matches_pattern (url : str) : Prop :=
  exists before id rest, status_url_at url before id rest.

(** [s] does not go on with a digit. *)
Definition no_digit_ahead (s : str) : Prop :=
  match s with
  | [] => True
  | a :: _ => is_digit a = false
  end.

(** [id] is the whole run of digits after the status segment of the first
    status link that [url] holds. *)
Definition identifier_of (url id : str) : Prop :=
  exists before rest,
    status_url_at url before id rest
    /\ no_digit_ahead rest
    /\ (forall before' id' rest',
          status_url_at url before' id' rest' -> length before <= length before').

(** The part of [href] after its last slash (all of it when it has none). *)
Fixpoint last_segment (href : str) : str :=
  match href with
  | [] => []
  | a :: rest =>
      if existsb (Ascii.eqb "/"%char) rest then last_segment rest
      else if Ascii.eqb a "/"%char then rest
      else a :: rest
  end.

(** The identifier a [time] node carries when it is wrapped in a link: its
    parent exists, is not a SPAN, and has an [href] whose last segment is not
    empty. *)
Definition link_id (node : Dom.Time) : option str :=
  match Dom.parentElement node with
  | Some parent =>
      if str_eqb (Dom.el_tagName parent) (L "SPAN") then None
      else
        match Dom.href parent with
        | Some href =>
            match last_segment href with
            | [] => None
            | id => Some id
            end
        | None => None
        end
  | None => None
  end.

Definition wrapped_in_link (node : Dom.Time) : bool :=
  match link_id node with Some _ => true | None => false end.

(** The identifiers of the link-wrapped nodes among [nodes], in order. *)
Definition link_ids (nodes : list Dom.Time) : list str :=
  flat_map (fun node => match link_id node with Some id => [id] | None => [] end)
           nodes.

(** The [time] nodes the in-page script reads. *)
Definition scanned_nodes (doc : Dom.Document) : list Dom.Time :=
  Dom.timeNodes doc
    (match showRepliesButton doc with Some _ => true | None => false end).

(** Events of a kind in a trace. *)
Definition is_close (ev : event) : bool :=
  match ev with BrowserClose => true | _ => false end.
Definition is_launch (ev : event) : bool :=
  match ev with Launch => true | _ => false end.
Definition is_search (ev : event) : bool :=
  match ev with GetTweetThread _ => true | _ => false end.

Definition count (p : event -> bool) (t : list event) : nat :=
  length (filter p t).

(** The exception the scan raises, if any: the first of [browser.newPage],
    [page.goto] and [page.evaluate] that throws. *)
Definition scan_exception (w : World) (tweetId : str) : option exn :=
  match browser_newPage w with
  | Some e => Some e
  | None =>
      match page_goto w (L "https://twitter.com/anyone/status/" ++ tweetId) with
      | Some e => Some e
      | None => page_evaluate w
      end
  end.

(** A string without the characters that [_.escape] replaces by entities,
    the ampersand apart. *)
Definition is_markup (a : ascii) : bool :=
  Ascii.eqb a "<"%char || Ascii.eqb a ">"%char || Ascii.eqb a dquote
  || Ascii.eqb a "'"%char || Ascii.eqb a "`"%char.

Definition no_markup (s : str) : Prop := forallb (fun a => negb (is_markup a)) s = true.

(** [pat] occurs in [before ++ pat] at its end only: in a text that goes
    on after [before ++ pat], the first occurrence of [pat] starts right
    after [before]. *)
Definition first_occurrence (pat before : str) : Prop :=
  forall p q, before ++ pat = p ++ pat ++ q -> q = [].

Definition dollar_free (s : str) : Prop :=
  existsb (Ascii.eqb "$"%char) s = false.

(** A text cut at the urls of its entities: each item is a stretch of
    text and the entity whose url follows it.  [plain] is the text as it is
    posted, [linked] the text with each url replaced by its anchor. *)
Fixpoint plain (items : list (str * UrlObj.t)) (tail : str) : str :=
  match items with
  | [] => tail
  | (seg, e) :: rest => seg ++ UrlObj.url e ++ plain rest tail
  end.

Fixpoint linked (items : list (str * UrlObj.t)) (tail : str) : str :=
  match items with
  | [] => tail
  | (seg, e) :: rest => seg ++ anchor e ++ linked rest tail
  end.

(** Each url is met first at its own place in the text rendered so far
    ([done]), and no anchor holds a dollar sign. *)
Fixpoint well_placed (done : str) (items : list (str * UrlObj.t)) : Prop :=
  match items with
  | [] => True
  | (seg, e) :: rest =>
      first_occurrence (UrlObj.url e) (done ++ seg)
      /\ dollar_free (UrlObj.expanded_url e)
      /\ dollar_free (UrlObj.display_url e)
      /\ well_placed (done ++ seg ++ anchor e) rest
  end.

(** An identifier that a link can carry: not empty, and without a slash. *)
Definition well_formed_id (id : str) : Prop :=
  id <> [] /\ existsb (Ascii.eqb "/"%char) id = false.

(** [id] is what follows the last slash of the [href] of the parent of one
    of [nodes] (all of the [href] when it has no slash). *)
Definition trails_a_link (nodes : list Dom.Time) (id : str) : Prop :=
  exists node parent href,
    In node nodes
    /\ Dom.parentElement node = Some parent
    /\ Dom.href parent = Some href
    /\ (href = id \/ exists before, href = before ++ "/"%char :: id).

(** The document holds a [div[dir=auto]] whose first child is a SPAN that
    reads Show replies. *)
Definition has_show_replies (doc : Dom.Document) : Prop :=
  exists div child,
    In div (Dom.autoDivs doc)
    /\ Dom.children0 div = Some child
    /\ Dom.tagName child = L "SPAN"
    /\ Dom.innerHTML child = L "Show replies".

(** The media [m] is attached to the post [t]: its key is one of the media
    keys of the attachments of [t]. *)
Definition attached (t : TweetData.t) (m : Media.t) : bool :=
  match TweetData.attachments t with
  | Some keys =>
      if in_dec (list_eq_dec ascii_dec) (Media.media_key m) keys then true
      else false
  | None => false
  end.

(** ** Sample data *)

Module Sample.

Definition jack : User.t :=
  User.mk (L "12") (L "jack") (L "https://pbs.twimg.com/p/jack_normal.jpg") (L "jack").

Definition other : User.t :=
  User.mk (L "99") (L "someone else") (L "https://pbs.twimg.com/p/else_normal.jpg")
          (L "else").

Definition post (author text created conversation : str) : TweetData.t :=
  TweetData.mk author text None created [] conversation None.

Definition root_created : str := L "2006-03-21T20:50:14.000Z".

Definition root_data : TweetData.t :=
  post (L "12") (L "just setting up my twttr") root_created (L "20").

Definition root : Tweet.t :=
  Tweet.mk root_data (TweetIncludes.mk [jack] None).

(** A reply to [root], of identifier 23. *)
Definition reply : Tweet.t :=
  Tweet.mk (post (L "99") (L "welcome") root_created (L "20"))
           (TweetIncludes.mk [other] None).

Definition p1 : TweetData.t := post (L "12") (L "first") root_created (L "20").
Definition p2 : TweetData.t := post (L "99") (L "second") root_created (L "20").
Definition p3 : TweetData.t := post (L "12") (L "third") root_created (L "20").

(** A search response of three posts, newest first. *)
Definition search3 : Tweets.t :=
  Tweets.mk [p3; p2; p1] (TweetIncludes.mk [jack; other] None) (TweetMeta.mk 3).

Definition not_found : exn := External (L "404").

Definition link (href : str) : Dom.Time :=
  Dom.mkTime (Some (Dom.mkElement (L "A") (Some href))).
Definition in_span : Dom.Time :=
  Dom.mkTime (Some (Dom.mkElement (L "SPAN") None)).
Definition bare : Dom.Time := Dom.mkTime None.

Definition page (nodes : list Dom.Time) : Dom.Document :=
  Dom.mkDocument [] (fun _ => nodes).

(** The root post was created at time 1000 of a clock that now shows
    [1000 + age]; the API knows the posts 20 and 23 and answers the
    conversation search with [search3]; the browser works unless told
    otherwise. *)
Definition world (age : Z) (nodes : list Dom.Time)
    (evaluate close : option exn) : World :=
  mkWorld (Some (L "token"))
          (1000 + age)
          (fun s => if str_eqb s root_created then Some 1000%Z else None)
          (fun s => s)
          (fun id => if str_eqb id (L "20") then inr root
                     else if str_eqb id (L "23") then inr reply
                     else inl not_found)
          (fun _ => inr search3)
          (fun ids => inr (Tweets.mk [p1] (TweetIncludes.mk [jack] None)
                                     (TweetMeta.mk 1)))
          None None (fun _ => None) evaluate
          (page nodes)
          close.

Definition one_day : Z := 24 * 60 * 60 * 1000.

Definition recent_world : World := world one_day [] None None.

Definition stale_world : World :=
  world (30 * one_day) [link (L "/jack/status/20"); in_span; link (L "/else/status/23")]
        None None.

Definition crashed : exn := External (L "Execution context was destroyed").

Definition crashing_world : World :=
  world (30 * one_day) [link (L "/jack/status/20")] (Some crashed) None.

(** A page of 101 timestamps: 100 without a parent, then one in a link. *)
Definition late_link_page : Dom.Document :=
  page (repeat bare 100 ++ [link (L "/jack/status/20")]).

(** A world whose browser fails to close after a crashed scan. *)
Definition unclosable_world : World :=
  world (30 * one_day) [] (Some crashed) (Some (External (L "close failed"))).

(** A world whose clock shows exactly seven days after the root post. *)
Definition seventh_day_world : World := world (7 * one_day) [] None None.

(** [w] with another answer to the fetch of a post by its id. *)
Definition with_api (w : World) (api : str -> exn + Tweet.t) : World :=
  mkWorld (TWITTER_BEARER_TOKEN w) (Date_now w) (Date_getTime w)
          (formatTimestamp w) api (api_search w) (api_tweets w)
          (puppeteer_launch w) (browser_newPage w) (page_goto w)
          (page_evaluate w) (page_document w) (browser_close w).

(** A root post whose author id is the empty string. *)
Definition anonymous_root : Tweet.t :=
  Tweet.mk (post [] (L "hello") root_created (L "20"))
           (TweetIncludes.mk [jack] None).

Definition anonymous_world : World :=
  with_api recent_world (fun _ => inr anonymous_root).

(** A root post whose text holds markup. *)
Definition markup_root : Tweet.t :=
  Tweet.mk (post (L "12") (L "<script>alert(1)</script>") root_created (L "20"))
           (TweetIncludes.mk [jack] None).

Definition markup_world : World :=
  with_api recent_world (fun _ => inr markup_root).

(** A post with one url entity whose expanded url holds a dollar sign
    followed by an ampersand. *)
Definition dollar_entity : UrlObj.t :=
  UrlObj.mk (L "https://t.co/abc") (L "https://example.com/?a=$&b=1")
            (L "example.com").

Definition dollar_post : TweetData.t :=
  TweetData.mk (L "12") (L "see https://t.co/abc") (Some [dollar_entity])
               root_created [] (L "20") None.

(** A post with two url entities, each url followed by more text. *)
Definition entity_a : UrlObj.t :=
  UrlObj.mk (L "https://t.co/aaa") (L "https://example.com/a") (L "example.com/a").

Definition entity_b : UrlObj.t :=
  UrlObj.mk (L "https://t.co/bbb") (L "https://example.org/b?x=1") (L "example.org/b").

Definition two_links : list (str * UrlObj.t) :=
  [(L "read ", entity_a); (L " then ", entity_b)].

Definition two_links_post : TweetData.t :=
  TweetData.mk (L "12") (L "read https://t.co/aaa then https://t.co/bbb (http://untracked.example)")
               (Some [entity_a; entity_b]) root_created [] (L "20") None.

(** [w] without a bearer token. *)
Definition without_token (w : World) : World :=
  mkWorld None (Date_now w) (Date_getTime w)
          (formatTimestamp w) (api_tweet w) (api_search w) (api_tweets w)
          (puppeteer_launch w) (browser_newPage w) (page_goto w)
          (page_evaluate w) (page_document w) (browser_close w).

Definition tokenless_world : World := without_token stale_world.

(** [w] with a clock that parses no date. *)
Definition without_dates (w : World) : World :=
  mkWorld (TWITTER_BEARER_TOKEN w) (Date_now w) (fun _ => None)
          (formatTimestamp w) (api_tweet w) (api_search w) (api_tweets w)
          (puppeteer_launch w) (browser_newPage w) (page_goto w)
          (page_evaluate w) (page_document w) (browser_close w).

Definition undated_world : World := without_dates stale_world.

(** An API that knows no post, and one that knows the reply 23 only. *)
Definition failing_api_world : World :=
  with_api recent_world (fun _ => inl not_found).

Definition orphan_reply_world : World :=
  with_api recent_world
    (fun id => if str_eqb id (L "23") then inr reply else inl not_found).

(** A root post that comes without any user. *)
Definition userless_root : Tweet.t :=
  Tweet.mk root_data (TweetIncludes.mk [] None).

Definition userless_world : World :=
  with_api recent_world (fun _ => inr userless_root).

(** A post whose only url entity does not occur in its text. *)
Definition absent_entity_post : TweetData.t :=
  TweetData.mk (L "12") (L "no link in here") (Some [entity_a])
               root_created [] (L "20") None.

(** A page with a Show replies button: one reply shows once it is clicked. *)
Definition expandable_page : Dom.Document :=
  Dom.mkDocument
    [Dom.mkDiv None;
     Dom.mkDiv (Some (Dom.mkChild (L "DIV") (L "Show replies")));
     Dom.mkDiv (Some (Dom.mkChild (L "SPAN") (L "Show replies")))]
    (fun clicked =>
       if clicked then [link (L "/jack/status/20"); link (L "/else/status/23")]
       else [link (L "/jack/status/20")]).

(** [w] with another answer to the conversation search. *)
Definition with_search (w : World) (search : str -> exn + Tweets.t) : World :=
  mkWorld (TWITTER_BEARER_TOKEN w) (Date_now w) (Date_getTime w)
          (formatTimestamp w) (api_tweet w) search (api_tweets w)
          (puppeteer_launch w) (browser_newPage w) (page_goto w)
          (page_evaluate w) (page_document w) (browser_close w).

(** A search response that counts no result (and holds a post all the
    same). *)
Definition empty_search : Tweets.t :=
  Tweets.mk [p1] (TweetIncludes.mk [jack] None) (TweetMeta.mk 0).

Definition quiet_world : World :=
  with_search recent_world (fun _ => inr empty_search).




(** A response with two media, and posts that attach the first, none, and
    a key that the response does not hold. *)
Definition photo : Media.t :=
  Media.mk (L "https://pbs.twimg.com/m/p_preview.jpg") (L "photo")
           (L "https://pbs.twimg.com/m/p.jpg") (L "k1").

Definition clip : Media.t :=
  Media.mk (L "https://pbs.twimg.com/m/c_preview.jpg") (L "video") [] (L "k2").

Definition with_keys (t : TweetData.t) (keys : option (list str)) : TweetData.t :=
  TweetData.mk (TweetData.author_id t) (TweetData.text t) (TweetData.entities t)
               (TweetData.created_at t) (TweetData.referenced_tweets t)
               (TweetData.conversation_id t) keys.

Definition media_response : Tweets.t :=
  Tweets.mk [with_keys p3 (Some [L "k2"; L "k1"]); with_keys p2 None;
             with_keys p1 (Some [L "k9"])]
            (TweetIncludes.mk [jack; other] (Some [photo; clip]))
            (TweetMeta.mk 3).

End Sample.

(** * Properties *)

(** ** The string library *)

Lemma strip_prefix_sound : forall p s s',
  strip_prefix p s = Some s' -> s = p ++ s'.
Proof.
  induction p as [|a p IH]; intros s s' H; simpl in H.
  - now inversion H.
  - destruct s as [|b s]; [discriminate|].
    destruct (Ascii.eqb a b) eqn:E; [|discriminate].
    apply Ascii.eqb_eq in E. subst b. simpl. f_equal. now apply IH.
Qed.

Lemma strip_prefix_app : forall p s, strip_prefix p (p ++ s) = Some s.
Proof.
  induction p as [|a p IH]; intros s; simpl; [reflexivity|].
  now rewrite Ascii.eqb_refl.
Qed.

Lemma firstn_minus_suffix : forall (w s : str),
  firstn (length (w ++ s) - length s) (w ++ s) = w.
Proof.
  intros w s. rewrite length_app.
  replace (length w + length s - length s) with (length w) by lia.
  rewrite firstn_app, Nat.sub_diag, firstn_all. simpl. apply app_nil_r.
Qed.

Lemma take_drop_while : forall p s, takeWhile p s ++ dropWhile p s = s.
Proof.
  induction s as [|a s IH]; simpl; [reflexivity|].
  destruct (p a); simpl; [now rewrite IH|reflexivity].
Qed.

Lemma takeWhile_all : forall p s, forallb p (takeWhile p s) = true.
Proof.
  induction s as [|a s IH]; simpl; [reflexivity|].
  destruct (p a) eqn:E; simpl; [now rewrite E|reflexivity].
Qed.

Lemma dropWhile_stops : forall p s,
  match dropWhile p s with [] => True | a :: _ => p a = false end.
Proof.
  induction s as [|a s IH]; simpl; [exact I|].
  destruct (p a) eqn:E; [exact IH|exact E].
Qed.

(** ** The matcher against the declarative semantics *)

Lemma many_sound : forall p s k x,
  many p s k = Some x ->
  exists w s', s = w ++ s' /\ forallb p w = true /\ k s' = Some x.
Proof.
  induction s as [|a s IH]; intros k x H; simpl in H.
  - exists [], []. auto.
  - destruct (p a) eqn:E.
    + destruct (many p s k) eqn:Em.
      * inversion H; subst. destruct (IH _ _ Em) as (w & s' & -> & Hw & Hk).
        exists (a :: w), s'. simpl. rewrite E. auto.
      * exists [], (a :: s). auto.
    + exists [], (a :: s). auto.
Qed.

Lemma many_here : forall p s k, k s <> None -> many p s k <> None.
Proof.
  intros p [|a s] k H; simpl; [exact H|].
  destruct (p a); [|exact H].
  destruct (many p s k); [discriminate|exact H].
Qed.

Lemma many_complete : forall p w s k,
  forallb p w = true -> k s <> None -> many p (w ++ s) k <> None.
Proof.
  induction w as [|a w IH]; intros s k Hw Hk; simpl.
  - now apply many_here.
  - simpl in Hw. apply andb_true_iff in Hw as [Ha Hw]. rewrite Ha.
    specialize (IH s k Hw Hk).
    destruct (many p (w ++ s) k); [discriminate|contradiction].
Qed.

(** With a continuation that never fails, the greedy repetition takes the
    whole run. *)
Lemma many_total : forall p s k,
  (forall s', k s' <> None) -> many p s k = k (dropWhile p s).
Proof.
  induction s as [|a s IH]; intros k Hk; simpl; [reflexivity|].
  destruct (p a); [|reflexivity].
  rewrite IH by assumption.
  destruct (k (dropWhile p s)) eqn:E; [reflexivity|].
  now elim (Hk (dropWhile p s)).
Qed.

Lemma rmatch_sound : forall r s c k x,
  rmatch r s c k = Some x ->
  exists s' c', mt r s c s' c' /\ k s' c' = Some x.
Proof.
  induction r as [l|p|r1 IH1 r2 IH2|r IH|p|p|n r IH]; intros s c k x H; simpl in H.
  - destruct (strip_prefix l s) as [s'|] eqn:E; [|discriminate].
    apply strip_prefix_sound in E. subst s. exists s', c. split; [constructor|exact H].
  - destruct s as [|a s]; [discriminate|].
    destruct (p a) eqn:E; [|discriminate].
    exists s, c. split; [now constructor|exact H].
  - apply IH1 in H as (s1 & c1 & H1 & H).
    apply IH2 in H as (s2 & c2 & H2 & H).
    exists s2, c2. split; [econstructor; eassumption|exact H].
  - destruct (rmatch r s c k) eqn:E.
    + inversion H; subst. apply IH in E as (s' & c' & Hm & Hk).
      exists s', c'. split; [now apply mt_maybe_some|exact Hk].
    + exists s, c. split; [apply mt_maybe_none|exact H].
  - apply many_sound in H as (w & s' & -> & Hw & Hk).
    exists s', c. split; [now constructor|exact Hk].
  - destruct s as [|a s]; [discriminate|].
    destruct (p a) eqn:E; [|discriminate].
    apply many_sound in H as (w & s' & -> & Hw & Hk).
    exists s', c. split; [now constructor|exact Hk].
  - apply IH in H as (s' & c' & Hm & Hk).
    eexists _, _. split; [apply mt_capture; eassumption|exact Hk].
Qed.

Lemma rmatch_complete : forall r s c s' c',
  mt r s c s' c' ->
  forall k, k s' c' <> None -> rmatch r s c k <> None.
Proof.
  induction 1 as [l s c|p a s c Hp|r1 r2 s c s1 c1 s2 c2 _ IH1 _ IH2
                 |r s c s' c' _ IH|r s c|p w s c Hw|p a w s c Hp Hw
                 |n r s c s' c' _ IH]; intros k Hk; simpl.
  - now rewrite strip_prefix_app.
  - now rewrite Hp.
  - apply IH1. now apply IH2.
  - specialize (IH k Hk). destruct (rmatch r s c k); [discriminate|contradiction].
  - destruct (rmatch r s c k); [discriminate|exact Hk].
  - now apply many_complete.
  - rewrite Hp. now apply many_complete.
  - now apply IH.
Qed.

Lemma regexp_exec_sound : forall r s m,
  regexp_exec r s = Some m ->
  exists before s0,
    s = before ++ s0 /\ rmatch r s0 [] (fun _ c => Some c) = Some m.
Proof.
  induction s as [|a s IH]; intros m H; simpl in H.
  - destruct (rmatch r [] [] _) eqn:E; [|discriminate].
    inversion H; subst. exists [], []. auto.
  - destruct (rmatch r (a :: s) [] _) eqn:E.
    + inversion H; subst. exists [], (a :: s). auto.
    + apply IH in H as (before & s0 & -> & H). exists (a :: before), s0. auto.
Qed.

(** The match that [regexp_exec] returns starts at the least index at which
    the expression matches. *)
Lemma regexp_exec_leftmost : forall r s m,
  regexp_exec r s = Some m ->
  exists before s0,
    s = before ++ s0
    /\ rmatch r s0 [] (fun _ c => Some c) = Some m
    /\ (forall b1 b2, before = b1 ++ b2 -> b2 <> [] ->
          rmatch r (b2 ++ s0) [] (fun _ c => Some c) = None).
Proof.
  induction s as [|a s IH]; intros m H; simpl in H.
  - destruct (rmatch r [] [] _) eqn:E; [|discriminate].
    inversion H; subst. exists [], []. repeat split; trivial.
    intros [|x b1] [|y b2] Hb Hn; try discriminate. contradiction.
  - destruct (rmatch r (a :: s) [] _) eqn:E.
    + inversion H; subst. exists [], (a :: s). repeat split; trivial.
      intros [|x b1] [|y b2] Hb Hn; try discriminate. contradiction.
    + apply IH in H as (before & s0 & -> & H & Hleft).
      exists (a :: before), s0. repeat split; trivial.
      intros [|x b1] b2 Hb Hn.
      * cbn [app] in Hb. subst b2. exact E.
      * inversion Hb; subst. now apply Hleft with b1.
Qed.

Lemma regexp_exec_complete : forall r before s0,
  rmatch r s0 [] (fun _ c => Some c) <> None ->
  regexp_exec r (before ++ s0) <> None.
Proof.
  induction before as [|a before IH]; intros s0 H; simpl.
  - destruct s0; simpl; destruct (rmatch r _ [] _); try discriminate; contradiction.
  - destruct (rmatch r (a :: before ++ s0) [] _); [discriminate|]. now apply IH.
Qed.

(** ** The identifier extractor *)

Lemma rmatch_cat_sound : forall r1 r2 s c k x,
  rmatch (Cat r1 r2) s c k = Some x ->
  exists s1 c1, mt r1 s c s1 c1 /\ rmatch r2 s1 c1 k = Some x.
Proof. intros r1 r2 s c k x H. cbn [rmatch] in H. now apply rmatch_sound in H. Qed.

Lemma mt_lit_inv : forall l s c s' c',
  mt (Lit l) s c s' c' -> s = l ++ s' /\ c' = c.
Proof. intros l s c s' c' H. inversion H; subst. auto. Qed.

Lemma mt_maybe_lit_inv : forall l s c s' c',
  mt (Maybe (Lit l)) s c s' c' ->
  exists h, (h = [] \/ h = l) /\ s = h ++ s' /\ c' = c.
Proof.
  intros l s c s' c' H. inversion H; subst.
  - match goal with Hm : mt (Lit l) _ _ _ _ |- _ =>
      apply mt_lit_inv in Hm as [-> ->] end.
    exists l. auto.
  - exists []. auto.
Qed.

Lemma mt_capture_many1_inv : forall n p s c s' c',
  mt (Capture n (Many1 p)) s c s' c' ->
  exists w, w <> [] /\ forallb p w = true /\ s = w ++ s' /\ c' = set_cap n w c.
Proof.
  intros n p s c s' c' H. inversion H; subst.
  match goal with Hm : mt (Many1 p) _ _ _ _ |- _ => inversion Hm; subst end.
  exists (a :: w). repeat split.
  - discriminate.
  - simpl. apply andb_true_iff. auto.
  - change (a :: w ++ s') with ((a :: w) ++ s'). now rewrite firstn_minus_suffix.
Qed.

Lemma many_const : forall p s (x : caps), many p s (fun _ => Some x) = Some x.
Proof.
  induction s as [|a s IH]; intros x; simpl; [reflexivity|].
  destruct (p a); [now rewrite IH|reflexivity].
Qed.

(** The optional last group never makes the match fail, and captures
    nothing. *)
Lemma optional_rest : forall l p s c,
  rmatch (Maybe (Cat (Lit l) (Many p))) s c (fun _ c0 => Some c0) = Some c.
Proof.
  intros l p s c. cbn [rmatch].
  destruct (strip_prefix l s); [now rewrite many_const|reflexivity].
Qed.

(** So the group before it captures the whole run of its class. *)
Lemma capture_run : forall n p l q a s c,
  p a = true ->
  rmatch (Cat (Capture n (Many1 p)) (Maybe (Cat (Lit l) (Many q)))) (a :: s) c
         (fun _ c0 => Some c0)
  = Some (set_cap n (a :: takeWhile p s) c).
Proof.
  intros n p l q a s c Ha.
  change (rmatch (Cat (Capture n (Many1 p)) (Maybe (Cat (Lit l) (Many q)))) (a :: s) c
            (fun _ c0 => Some c0))
    with (if p a then
            many p s (fun s1 =>
              rmatch (Maybe (Cat (Lit l) (Many q))) s1
                (set_cap n (firstn (length (a :: s) - length s1) (a :: s)) c)
                (fun _ c0 => Some c0))
          else None).
  rewrite Ha, many_total.
  - rewrite optional_rest. do 2 f_equal.
    rewrite <- (take_drop_while p s) at 1 3.
    change (a :: takeWhile p s ++ dropWhile p s)
      with ((a :: takeWhile p s) ++ dropWhile p s).
    apply firstn_minus_suffix.
  - intros s'. now rewrite optional_rest.
Qed.

Lemma capture_run_none : forall n p r s c k,
  match s with [] => True | a :: _ => p a = false end ->
  rmatch (Cat (Capture n (Many1 p)) r) s c k = None.
Proof.
  intros n p r [|a s] c k H; cbn [rmatch]; [reflexivity|]. now rewrite H.
Qed.

Lemma twitter_match_sound : forall s m,
  rmatch TWITTER_URL_MATCH s [] (fun _ c => Some c) = Some m ->
  exists id rest,
    status_url_at s [] id rest /\ no_digit_ahead rest /\ get_cap 2 m = Some id.
Proof.
  intros s m H. unfold TWITTER_URL_MATCH in H.
  apply rmatch_cat_sound in H as (s1 & c1 & M1 & H).
  apply rmatch_cat_sound in H as (s2 & c2 & M2 & H).
  apply rmatch_cat_sound in H as (s3 & c3 & M3 & H).
  apply rmatch_cat_sound in H as (s4 & c4 & M4 & H).
  apply rmatch_cat_sound in H as (s5 & c5 & M5 & H).
  apply rmatch_cat_sound in H as (s6 & c6 & M6 & H).
  apply mt_lit_inv in M1 as [-> ->].
  apply mt_maybe_lit_inv in M2 as (hashbang & Hh & -> & ->).
  apply mt_capture_many1_inv in M3 as (user & Hu & Hw & -> & ->).
  apply mt_lit_inv in M4 as [-> ->].
  apply mt_maybe_lit_inv in M5 as (es & He & -> & ->).
  apply mt_lit_inv in M6 as [-> ->].
  destruct s6 as [|a s7]; [now rewrite capture_run_none in H|].
  destruct (is_digit a) eqn:Ea; [|now rewrite capture_run_none in H].
  rewrite capture_run in H by assumption. inversion H; subst m.
  exists (a :: takeWhile is_digit s7), (dropWhile is_digit s7). split; [|split].
  - exists hashbang, user, es. repeat split; auto.
    + simpl. do 12 f_equal.
      change (a :: takeWhile is_digit s7 ++ dropWhile is_digit s7)
        with (a :: (takeWhile is_digit s7 ++ dropWhile is_digit s7)).
      now rewrite take_drop_while.
    + discriminate.
    + simpl. now rewrite Ea, takeWhile_all.
  - apply dropWhile_stops.
  - reflexivity.
Qed.

Lemma twitter_match_mt : forall hashbang u user es d id rest,
  (hashbang = [] \/ hashbang = L "#!/") ->
  is_word u = true -> forallb is_word user = true ->
  (es = [] \/ es = L "es") ->
  is_digit d = true -> forallb is_digit id = true ->
  exists c',
    mt TWITTER_URL_MATCH
       (L "twitter.com/" ++ hashbang ++ (u :: user) ++ L "/status" ++ es
          ++ L "/" ++ (d :: id) ++ rest) [] rest c'.
Proof.
  intros hashbang u user es d id rest Hh Hu Hw He Hd Hi.
  destruct Hh as [-> | ->], He as [-> | ->];
    rewrite ?app_nil_l; eexists; unfold TWITTER_URL_MATCH;
    (eapply mt_cat; [apply mt_lit|]);
    (eapply mt_cat; [first [apply mt_maybe_some, mt_lit|apply mt_maybe_none]|]);
    (eapply mt_cat;
       [apply mt_capture; cbn [app]; now apply mt_many1|]);
    (eapply mt_cat; [apply mt_lit|]);
    (eapply mt_cat; [first [apply mt_maybe_some, mt_lit|apply mt_maybe_none]|]);
    (eapply mt_cat; [apply mt_lit|]);
    (eapply mt_cat;
       [apply mt_capture; cbn [app]; now apply mt_many1|]);
    apply mt_maybe_none.
Qed.

Lemma twitter_match_complete : forall s id rest,
  status_url_at s [] id rest ->
  rmatch TWITTER_URL_MATCH s [] (fun _ c => Some c) <> None.
Proof.
  intros s id rest (hashbang & user & es & -> & Hh & Hu & Hw & He & Hi & Hd).
  destruct user as [|u user]; [contradiction|].
  destruct id as [|d id]; [contradiction|].
  simpl in Hw, Hd. apply andb_true_iff in Hw as [Hu1 Hw], Hd as [Hd1 Hd].
  destruct (twitter_match_mt hashbang u user es d id rest) as (c' & Hm); auto.
  rewrite app_nil_l.
  apply (rmatch_complete _ _ _ _ _ Hm). discriminate.
Qed.

Lemma status_url_at_shift : forall url before id rest,
  status_url_at url before id rest ->
  exists s0, url = before ++ s0 /\ status_url_at s0 [] id rest.
Proof.
  intros url before id rest (h & u & e & -> & H).
  eexists. split; [reflexivity|]. exists h, u, e. split; [reflexivity|exact H].
Qed.

Lemma status_url_at_unshift : forall before s0 id rest,
  status_url_at s0 [] id rest -> status_url_at (before ++ s0) before id rest.
Proof.
  intros before s0 id rest (h & u & e & -> & H).
  exists h, u, e. split; [reflexivity|exact H].
Qed.

(** Two ways of cutting a text: one cut comes first. *)
Lemma app_eq_shorter : forall (x1 y1 x2 y2 : str),
  x1 ++ y1 = x2 ++ y2 -> length x2 < length x1 ->
  exists b, b <> [] /\ x1 = x2 ++ b /\ y2 = b ++ y1.
Proof.
  induction x1 as [|a x1 IH]; intros y1 [|b x2] y2 H Hl; cbn in *.
  - lia.
  - lia.
  - exists (a :: x1). repeat split; [discriminate|now subst].
  - inversion H; subst. destruct (IH y1 x2 y2) as (c & Hc & -> & ->);
      [assumption|lia|].
    exists c. auto.
Qed.

Lemma tweetIdFromStatusUrl_some : forall url id,
  tweetIdFromStatusUrl url = Some id -> identifier_of url id.
Proof.
  intros url id H. unfold tweetIdFromStatusUrl in H.
  destruct (regexp_exec TWITTER_URL_MATCH url) as [m|] eqn:E; [|discriminate].
  apply regexp_exec_leftmost in E as (before & s0 & -> & E & Hleft).
  apply twitter_match_sound in E as (id' & rest & Hs & Hr & Hid).
  rewrite Hid in H. inversion H; subst id'.
  exists before, rest. split; [now apply status_url_at_unshift|].
  split; [exact Hr|].
  intros before' id' rest' H'.
  destruct (Nat.le_gt_cases (length before) (length before')) as [Hle|Hlt];
    [exact Hle|exfalso].
  apply status_url_at_shift in H' as (s0' & E' & H').
  destruct (app_eq_shorter _ _ _ _ E' Hlt) as (b & Hb & -> & ->).
  apply twitter_match_complete in H'.
  now rewrite (Hleft before' b eq_refl Hb) in H'.
Qed.

Lemma tweetIdFromStatusUrl_matches : forall url,
  matches_pattern url -> tweetIdFromStatusUrl url <> None.
Proof.
  intros url (before & id & rest & H). unfold tweetIdFromStatusUrl.
  apply status_url_at_shift in H as (s0 & -> & H).
  apply twitter_match_complete in H.
  apply (regexp_exec_complete _ before) in H.
  destruct (regexp_exec TWITTER_URL_MATCH (before ++ s0)) as [m|] eqn:E;
    [|contradiction].
  apply regexp_exec_sound in E as (b' & s' & _ & E).
  apply twitter_match_sound in E as (id' & rest' & _ & _ & ->). discriminate.
Qed.

(** C5. For every url, the extractor returns either [Some id], and then
    [url] matches the recognized pattern and [id] is the digit sequence that
    follows [status/] or [statuses/] in its first status link (the whole run
    of digits), or [None], and then [url] does not match the recognized
    pattern.  The extractor is a total function: it throws on no input. *)
Theorem tweetIdFromStatusUrl_spec : forall url,
  match tweetIdFromStatusUrl url with
  | Some id => identifier_of url id
  | None => ~ matches_pattern url
  end.
Proof.
  intros url. destruct (tweetIdFromStatusUrl url) as [id|] eqn:E.
  - now apply tweetIdFromStatusUrl_some.
  - intros H. now apply tweetIdFromStatusUrl_matches in H.
Qed.

Example tweetId_standard :
  tweetIdFromStatusUrl (L "https://twitter.com/jack/status/20") = Some (L "20").
Proof. reflexivity. Qed.

Example tweetId_legacy :
  tweetIdFromStatusUrl (L "http://twitter.com/#!/jack/statuses/1234/photo/1")
  = Some (L "1234").
Proof. reflexivity. Qed.

Example tweetId_digits_then_text :
  tweetIdFromStatusUrl (L "twitter.com/a_b/status/98765xyz?s=20") = Some (L "98765").
Proof. reflexivity. Qed.

Example tweetId_profile :
  tweetIdFromStatusUrl (L "https://twitter.com/jack") = None.
Proof. reflexivity. Qed.

Example tweetId_no_digits :
  tweetIdFromStatusUrl (L "https://twitter.com/jack/status/abc") = None.
Proof. reflexivity. Qed.

(** ** The in-page scan *)

Lemma split_nonempty : forall sep s, split sep s <> [].
Proof.
  intros sep [|a s]; simpl; [discriminate|].
  destruct (Ascii.eqb a sep); [discriminate|].
  destruct (split sep s); discriminate.
Qed.

Lemma split_no_sep : forall sep s,
  existsb (Ascii.eqb sep) s = false -> split sep s = [s].
Proof.
  induction s as [|a s IH]; simpl; intros H; [reflexivity|].
  apply orb_false_iff in H as [Ha Hs].
  rewrite Ascii.eqb_sym, Ha, (IH Hs). reflexivity.
Qed.

Lemma split_with_sep : forall sep s,
  existsb (Ascii.eqb sep) s = true ->
  exists h x t, split sep s = h :: x :: t.
Proof.
  induction s as [|a s IH]; simpl; intros H; [discriminate|].
  destruct (Ascii.eqb a sep) eqn:Ea.
  - destruct (split sep s) as [|x t] eqn:Es; [now elim (split_nonempty sep s)|].
    now exists [], x, t.
  - rewrite Ascii.eqb_sym, Ea in H. simpl in H.
    destruct (IH H) as (h & x & t & ->). now exists (a :: h), x, t.
Qed.

Lemma last_split : forall s, last (split "/"%char s) [] = last_segment s.
Proof.
  induction s as [|a s IH]; [reflexivity|].
  cbn [split last_segment].
  destruct (existsb (Ascii.eqb "/"%char) s) eqn:Es.
  - destruct (split_with_sep _ _ Es) as (h & x & t & E).
    rewrite E in IH |- *. destruct (Ascii.eqb a "/"%char); exact IH.
  - rewrite (split_no_sep _ _ Es). now destruct (Ascii.eqb a "/"%char).
Qed.

Lemma hd_rev_last : forall (l : list str),
  l <> [] -> hd_error (rev l) = Some (last l []).
Proof.
  intros l H. destruct (exists_last H) as (l' & x & ->).
  now rewrite rev_app_distr, last_last.
Qed.

(** [href.split('/').reverse()[0]] is the last segment of [href]. *)
Lemma trailing_segment : forall href,
  hd_error (rev (split "/"%char href)) = Some (last_segment href).
Proof.
  intros href. rewrite hd_rev_last by apply split_nonempty.
  now rewrite last_split.
Qed.

(** The last segment holds no slash, and is what follows the last slash. *)
Lemma last_segment_spec : forall s,
  existsb (Ascii.eqb "/"%char) (last_segment s) = false
  /\ (s = last_segment s \/ exists before, s = before ++ "/"%char :: last_segment s).
Proof.
  induction s as [|a s [IH1 IH2]]; [simpl; auto|].
  cbn [last_segment].
  destruct (existsb (Ascii.eqb "/"%char) s) eqn:Es.
  - split; [exact IH1|]. right. destruct IH2 as [E | (before & E)].
    + rewrite <- E in IH1. congruence.
    + exists (a :: before). simpl. now f_equal.
  - destruct (Ascii.eqb a "/"%char) eqn:Ea.
    + split; [exact Es|]. right. exists []. apply Ascii.eqb_eq in Ea. now subst.
    + split; [|now left]. cbn [existsb]. now rewrite Ascii.eqb_sym, Ea, Es.
Qed.

Lemma time_node_id_link_id : forall node, time_node_id node = link_id node.
Proof.
  intros [[[tag [href|]]|]]; unfold time_node_id, link_id;
    cbn [Dom.parentElement Dom.el_tagName Dom.href]; try reflexivity.
  destruct (str_eqb tag (L "SPAN")); [reflexivity|].
  rewrite trailing_segment.
  destruct href as [|a href]; [reflexivity|].
  cbn [truthy negb]. now destruct (last_segment (a :: href)).
Qed.

Lemma scan_loop_spec : forall nodes i ids,
  scan_loop i nodes ids = ids ++ link_ids (firstn (MAX_THREAD_DEPTH - i) nodes).
Proof.
  induction nodes as [|node nodes IH]; intros i ids; cbn [scan_loop].
  - now rewrite firstn_nil, app_nil_r.
  - destruct (Nat.ltb_spec i MAX_THREAD_DEPTH) as [Hi|Hi].
    + replace (MAX_THREAD_DEPTH - i) with (S (MAX_THREAD_DEPTH - S i)) by lia.
      cbn [firstn]. unfold link_ids. cbn [flat_map].
      fold (link_ids (firstn (MAX_THREAD_DEPTH - S i) nodes)).
      rewrite time_node_id_link_id.
      destruct (link_id node); rewrite IH; [now rewrite <- app_assoc|reflexivity].
    + replace (MAX_THREAD_DEPTH - i) with 0 by lia. now rewrite app_nil_r.
Qed.

Lemma length_link_ids : forall nodes,
  length (link_ids nodes) = length (filter wrapped_in_link nodes).
Proof.
  induction nodes as [|node nodes IH]; [reflexivity|].
  unfold link_ids, wrapped_in_link in *. cbn [flat_map filter].
  destruct (link_id node); cbn [app length]; now rewrite IH.
Qed.

Lemma in_page_script_spec : forall doc,
  in_page_script doc = link_ids (firstn MAX_THREAD_DEPTH (scanned_nodes doc)).
Proof.
  intros doc. unfold in_page_script, scanned_nodes.
  now rewrite scan_loop_spec, Nat.sub_0_r.
Qed.

(** C7 (amended). The scan returns the identifiers of the link-wrapped
    timestamps among the first [MAX_THREAD_DEPTH] = 100 timestamp elements
    of the document, in document order: as many entries as there are such
    timestamps among the first 100, never more than 100, and exactly [M],
    the number of link-wrapped timestamps of the document, when the
    document has at most 100 timestamps. *)
Theorem scan_recovers_link_ids : forall doc,
  let nodes := scanned_nodes doc in
  let ids := in_page_script doc in
  ids = link_ids (firstn MAX_THREAD_DEPTH nodes)
  /\ length ids = length (filter wrapped_in_link (firstn MAX_THREAD_DEPTH nodes))
  /\ length ids <= MAX_THREAD_DEPTH
  /\ (length nodes <= MAX_THREAD_DEPTH ->
      length ids = length (filter wrapped_in_link nodes)).
Proof.
  intros doc nodes ids.
  assert (E : ids = link_ids (firstn MAX_THREAD_DEPTH nodes))
    by apply in_page_script_spec.
  assert (El : length ids
               = length (filter wrapped_in_link (firstn MAX_THREAD_DEPTH nodes)))
    by (rewrite E; apply length_link_ids).
  repeat split; trivial.
  - rewrite El.
    eapply Nat.le_trans; [apply filter_length_le|]. apply firstn_le_length.
  - intros Hn. rewrite El. now rewrite firstn_all2.
Qed.

(** C7, as stated, fails: of 101 timestamps only the last is wrapped in a
    link, so [M] is 1, and the scan returns no identifier. *)
Lemma scan_misses_late_link :
  let doc := Sample.late_link_page in
  length (scanned_nodes doc) = 101
  /\ length (filter wrapped_in_link (scanned_nodes doc)) = 1
  /\ in_page_script doc = []
  /\ length (in_page_script doc)
     <> length (filter wrapped_in_link (scanned_nodes doc)).
Proof. vm_compute. repeat split; trivial. discriminate. Qed.

Example scan_of_three_nodes :
  in_page_script
    (Sample.page [Sample.link (L "/jack/status/20"); Sample.in_span;
                  Sample.link (L "https://twitter.com/else/status/23")])
  = [L "20"; L "23"].
Proof. reflexivity. Qed.

Example scan_skips_trailing_slash :
  in_page_script (Sample.page [Sample.link (L "/jack/status/20/"); Sample.bare]) = [].
Proof. reflexivity. Qed.

(** ** The puppeteer fallback *)

(** When no browser can be launched there is none to close. *)
Lemma launch_failure : forall w tweetId e,
  puppeteer_launch w = Some e -> getTweetIds w tweetId = ([Launch], inl e).
Proof. intros w tweetId e H. unfold getTweetIds. now rewrite H. Qed.

(** C9. On every call of the fallback that launches a browser, whatever
    the scan does (it returns identifiers, or one of its steps throws and
    the handler returns early) and whatever comes of closing, the trace of
    the call holds exactly one [browser.close()], and it is its last event. *)
Theorem browser_closed_exactly_once : forall w tweetId,
  puppeteer_launch w = None ->
  count is_close (trace (getTweetIds w tweetId)) = 1
  /\ last (trace (getTweetIds w tweetId)) Launch = BrowserClose.
Proof.
  intros w tweetId Hl. unfold getTweetIds. rewrite Hl.
  destruct (browser_newPage w), (page_goto w _), (page_evaluate w),
    (browser_close w); split; reflexivity.
Qed.

Lemma browser_closed_exactly_once_witness :
  count is_close (trace (getTweetIds Sample.crashing_world (L "20"))) = 1
  /\ last (trace (getTweetIds Sample.crashing_world (L "20"))) Launch = BrowserClose.
Proof. apply browser_closed_exactly_once. reflexivity. Defined.

(** C8 (amended). When a step of the scan throws [e] in a launched
    browser, the fallback catches [e] and logs it, and [e] is never what the
    fallback throws: when closing the browser then completes, the fallback
    returns the empty list, and the stale path goes on to the batch fetch
    with no identifier; when [browser.close()] throws in the [finally]
    block, the fallback throws the exception of the close. *)
Theorem scan_exception_yields_no_ids : forall w tweetId e,
  puppeteer_launch w = None ->
  scan_exception w tweetId = Some e ->
  In (ConsoleLog e) (trace (getTweetIds w tweetId))
  /\ outcome (getTweetIds w tweetId)
     = match browser_close w with
       | None => inr []
       | Some c => inl c
       end
  /\ (browser_close w = None ->
      outcome (getOldTweets w tweetId)
      = outcome (response <- getTweetsByIds w [] ;;
                 ret (getTweetsFromResponse response))).
Proof.
  intros w tweetId e Hl He.
  assert (E : exists t,
            getTweetIds w tweetId
            = (t, match browser_close w with None => inr [] | Some c => inl c end)
            /\ In (ConsoleLog e) t).
  { unfold getTweetIds, scan_exception in *. rewrite Hl.
    destruct (browser_newPage w) as [e1|].
    { inversion He; subst.
      destruct (browser_close w); eexists; (split; [reflexivity|]); cbn; auto. }
    destruct (page_goto w _) as [e2|].
    { inversion He; subst.
      destruct (browser_close w); eexists; (split; [reflexivity|]); cbn; auto. }
    rewrite He.
    destruct (browser_close w); eexists; (split; [reflexivity|]); cbn; auto 10. }
  destruct E as (t & E & Hin). rewrite E. repeat split; trivial.
  intros Hc. unfold getOldTweets. rewrite E, Hc.
  unfold bind, outcome.
  destruct (getTweetsByIds w []) as [t' [e'|response]]; reflexivity.
Qed.

Lemma scan_exception_yields_no_ids_witness :
  In (ConsoleLog Sample.crashed)
     (trace (getTweetIds Sample.crashing_world (L "20")))
  /\ outcome (getTweetIds Sample.crashing_world (L "20")) = inr []
  /\ outcome (getOldTweets Sample.crashing_world (L "20"))
     = outcome (response <- getTweetsByIds Sample.crashing_world [] ;;
                ret (getTweetsFromResponse response)).
Proof.
  destruct (scan_exception_yields_no_ids Sample.crashing_world (L "20")
              Sample.crashed eq_refl eq_refl) as (Hlog & Hout & Hnext).
  split; [exact Hlog|]. split; [exact Hout|]. apply Hnext. reflexivity.
Defined.

(** C8, as stated, fails when closing throws too: the scan crashes in a
    launched browser, the exception is caught and logged, and yet the
    fallback returns no list: it throws the exception of
    [browser.close()], and the stale path stops there, without a batch
    fetch. *)
Lemma scan_exception_lost_when_close_fails :
  let w := Sample.unclosable_world in
  puppeteer_launch w = None
  /\ scan_exception w (L "20") = Some Sample.crashed
  /\ In (ConsoleLog Sample.crashed) (trace (getTweetIds w (L "20")))
  /\ outcome (getTweetIds w (L "20")) = inl (External (L "close failed"))
  /\ outcome (getTweetIds w (L "20")) <> inr []
  /\ getOldTweets w (L "20")
     = (trace (getTweetIds w (L "20")), inl (External (L "close failed"))).
Proof.
  cbn zeta. repeat split.
  - cbn. auto 10.
  - discriminate.
Qed.

(** When closing throws as well, the exception of [browser.close()] is what
    the caller gets: the list of the handler is lost. *)
Lemma close_failure_propagates :
  outcome (getTweetIds Sample.unclosable_world (L "20"))
  = inl (External (L "close failed")).
Proof. reflexivity. Qed.

(** ** The monad *)

Lemma trace_bind : forall (A B : Type) (m : M A) (f : A -> M B),
  trace (bind m f)
  = trace m ++ match outcome m with inr a => trace (f a) | inl _ => [] end.
Proof.
  intros A B [t [e|a]] f; unfold bind, trace, outcome; simpl.
  - now rewrite app_nil_r.
  - now destruct (f a).
Qed.

Lemma outcome_bind : forall (A B : Type) (m : M A) (f : A -> M B),
  outcome (bind m f)
  = match outcome m with inr a => outcome (f a) | inl e => inl e end.
Proof.
  intros A B [t [e|a]] f; unfold bind, outcome; simpl; [reflexivity|].
  now destruct (f a).
Qed.

Lemma count_app : forall p t1 t2, count p (t1 ++ t2) = count p t1 + count p t2.
Proof. intros p t1 t2. unfold count. now rewrite filter_app, length_app. Qed.

(** ** The resolution *)

(** The identifier found in a url is never the empty string. *)
Lemma tweetId_truthy : forall url tweetId,
  tweetIdFromStatusUrl url = Some tweetId -> truthy tweetId = true.
Proof.
  intros url tweetId H. apply tweetIdFromStatusUrl_some in H.
  destruct H as (b & r & (h & u & e & _ & _ & _ & _ & _ & Hi & _) & _ & _).
  now destruct tweetId.
Qed.

(** What a successful resolution went through. *)
Lemma preHandle_success : forall w url r,
  outcome (preHandle w url) = inr r ->
  exists tweetId conversationId fetched author others users' tweets,
    tweetIdFromStatusUrl url = Some tweetId
    /\ outcome (fetch_root w tweetId) = inr (conversationId, fetched)
    /\ author_filter (TweetData.author_id (Tweet.data fetched))
                     (TweetIncludes.users (Tweet.includes fetched))
       = (author :: others, users')
    /\ outcome (thread_of w
                  (Tweet.mk (Tweet.data fetched)
                     (TweetIncludes.mk users'
                        (TweetIncludes.media (Tweet.includes fetched))))
                  conversationId) = inr tweets
    /\ r = mkResult (document_of w url author (Tweet.data fetched) tweets) url
                    (escape (titleForAuthor author)).
Proof.
  intros w url r H. unfold preHandle in H.
  destruct (tweetIdFromStatusUrl url) as [tweetId|] eqn:Eid; [|discriminate].
  destruct (truthy tweetId); [|discriminate]. cbn [negb] in H.
  rewrite outcome_bind in H.
  destruct (outcome (fetch_root w tweetId)) as [e|[conversationId fetched]] eqn:Ef;
    [discriminate|].
  destruct (author_filter _ _) as [[|author others] users'] eqn:Ea; [discriminate|].
  rewrite outcome_bind in H.
  destruct (outcome (thread_of w _ conversationId)) as [e|tweets] eqn:Et;
    [discriminate|].
  inversion H; subst r.
  exists tweetId, conversationId, fetched, author, others, users', tweets.
  auto.
Qed.

Lemma fetch_root_by_conversation_id : forall w tweetId conversationId root,
  outcome (fetch_root w tweetId) = inr (conversationId, root) ->
  api_tweet w conversationId = inr root.
Proof.
  intros w tweetId conversationId root H.
  unfold fetch_root, getTweetById in H.
  destruct (has_token w); [|discriminate]. cbn [negb] in H.
  rewrite outcome_bind in H. unfold call, outcome in H. cbn [snd] in H.
  destruct (api_tweet w tweetId) as [e|tweet] eqn:E1; [discriminate|].
  destruct (str_eqb (TweetData.conversation_id (Tweet.data tweet)) tweetId) eqn:Eq;
    cbn [negb] in H.
  - inversion H; subst. unfold str_eqb in Eq.
    destruct (list_eq_dec ascii_dec _ tweetId) as [->|]; [exact E1|discriminate].
  - unfold bind in H.
    destruct (api_tweet w (TweetData.conversation_id (Tweet.data tweet)))
      as [e|root'] eqn:E2; cbn in H; inversion H; now subst.
Qed.

Lemma str_eqb_eq : forall a b, str_eqb a b = true <-> a = b.
Proof.
  intros a b. unfold str_eqb.
  destruct (list_eq_dec ascii_dec a b); split; congruence.
Qed.

Lemma str_eqb_neq : forall a b, a <> b -> str_eqb a b = false.
Proof.
  intros a b H. destruct (str_eqb a b) eqn:E; [|reflexivity].
  now apply str_eqb_eq in E.
Qed.

(** The two fetches of a resolution that starts from a reply. *)
Lemma fetch_root_reply : forall w tweetId tweet,
  has_token w = true ->
  api_tweet w tweetId = inr tweet ->
  TweetData.conversation_id (Tweet.data tweet) <> tweetId ->
  let conversationId := TweetData.conversation_id (Tweet.data tweet) in
  fetch_root w tweetId
  = ([GetTweetById tweetId; GetTweetById conversationId],
     match api_tweet w conversationId with
     | inl e => inl e
     | inr root => inr (conversationId, root)
     end).
Proof.
  intros w tweetId tweet Htok Hapi Hneq conversationId.
  unfold fetch_root, getTweetById, bind, call, ret.
  rewrite Htok, Hapi. cbn [negb].
  rewrite (str_eqb_neq _ _ Hneq). cbn [negb]. fold conversationId.
  destruct (api_tweet w conversationId); reflexivity.
Qed.

(** In every case the root of a resolution is the post served under the
    conversation id. *)
Lemma root_is_conversation_root : forall w url r,
  outcome (preHandle w url) = inr r ->
  exists conversationId root author tweets,
    api_tweet w conversationId = inr root
    /\ content r = document_of w url author (Tweet.data root) tweets.
Proof.
  intros w url r Hr.
  apply preHandle_success in Hr
    as (tweetId & cid & fetched & author & others & users' & tweets
        & _ & Hroot & _ & _ & ->).
  apply fetch_root_by_conversation_id in Hroot.
  exists cid, fetched, author, tweets. auto.
Qed.

(** ** Routing by age *)

Lemma getTweetIds_routes : forall w tweetId,
  count is_launch (trace (getTweetIds w tweetId)) = 1
  /\ count is_search (trace (getTweetIds w tweetId)) = 0
  /\ hd_error (trace (getTweetIds w tweetId)) = Some Launch.
Proof.
  intros w tweetId. unfold getTweetIds.
  destruct (puppeteer_launch w), (browser_newPage w), (page_goto w _),
    (page_evaluate w), (browser_close w); repeat split; reflexivity.
Qed.

Lemma getOldTweets_routes : forall w conversationId,
  count is_launch (trace (getOldTweets w conversationId)) = 1
  /\ count is_search (trace (getOldTweets w conversationId)) = 0
  /\ hd_error (trace (getOldTweets w conversationId)) = Some Launch.
Proof.
  intros w conversationId.
  destruct (getTweetIds_routes w conversationId) as (Hl & Hs & Hh).
  unfold getOldTweets. rewrite trace_bind, !count_app, Hl, Hs.
  assert (Hrest :
    forall p, (p = is_launch \/ p = is_search) ->
      count p match outcome (getTweetIds w conversationId) with
              | inl _ => []
              | inr a =>
                  trace (response <- getTweetsByIds w a ;;
                         ret (getTweetsFromResponse response))
              end = 0).
  { intros p Hp. destruct (outcome (getTweetIds w conversationId)) as [e|ids];
      [reflexivity|].
    unfold getTweetsByIds, bind, call. destruct (has_token w); cbn [negb].
    - destruct (api_tweets w ids); destruct Hp as [-> | ->]; reflexivity.
    - reflexivity. }
  rewrite !Hrest by auto. repeat split; trivial.
  destruct (trace (getTweetIds w conversationId)); [discriminate|exact Hh].
Qed.

Lemma recent_routes : forall w tweet conversationId,
  let run := recent <- getRecentTweets w conversationId ;; ret (tweet :: recent) in
  count is_launch (trace run) = 0
  /\ count is_search (trace run) <= 1
  /\ (has_token w = true -> trace run = [GetTweetThread conversationId]).
Proof.
  intros w tweet conversationId run. subst run.
  unfold getRecentTweets, getTweetThread, bind, call, ret.
  destruct (has_token w); cbn [negb].
  - destruct (api_search w conversationId) as [e|thread]; cbn.
    + auto.
    + destruct (TweetMeta.result_count (Tweets.meta thread) =? 0)%Z; cbn; auto.
  - cbn. repeat split; auto. discriminate.
Qed.

(** The conditional, read as a condition on the age of the post. *)
Lemma thread_of_by_age : forall w tweet conversationId created,
  Date_getTime w (TweetData.created_at (Tweet.data tweet)) = Some created ->
  ((Date_now w - created <= SEVEN_DAYS)%Z ->
     thread_of w tweet conversationId
     = (recent <- getRecentTweets w conversationId ;; ret (tweet :: recent)))
  /\ ((Date_now w - created > SEVEN_DAYS)%Z ->
     thread_of w tweet conversationId = getOldTweets w conversationId).
Proof.
  intros w tweet conversationId created Hc.
  unfold thread_of, older_than_7_days. rewrite Hc. split; intros Hage.
  - destruct (Z.ltb_spec created (Date_now w - SEVEN_DAYS)) as [Hlt|Hge];
      [lia|reflexivity].
  - destruct (Z.ltb_spec created (Date_now w - SEVEN_DAYS)) as [Hlt|Hge];
      [reflexivity|lia].
Qed.

Lemma fetch_root_routes : forall w tweetId,
  count is_launch (trace (fetch_root w tweetId)) = 0
  /\ count is_search (trace (fetch_root w tweetId)) = 0.
Proof.
  intros w tweetId. unfold fetch_root, getTweetById, bind, call, ret.
  destruct (has_token w); cbn [negb]; [|now split].
  destruct (api_tweet w tweetId) as [e|tweet]; [now split|].
  destruct (str_eqb _ tweetId); cbn [negb]; [now split|].
  destruct (api_tweet w _); now split.
Qed.

Lemma fetch_root_needs_token : forall w tweetId x,
  outcome (fetch_root w tweetId) = inr x -> has_token w = true.
Proof.
  intros w tweetId x H. unfold fetch_root, getTweetById in H.
  now destruct (has_token w).
Qed.

(** The calls of a resolution that found its root post and its author:
    those of the fetch of the root, then those of the assembly of the
    thread. *)
Lemma preHandle_trace : forall w url tweetId conversationId root author others users',
  tweetIdFromStatusUrl url = Some tweetId ->
  outcome (fetch_root w tweetId) = inr (conversationId, root) ->
  author_filter (TweetData.author_id (Tweet.data root))
                (TweetIncludes.users (Tweet.includes root))
  = (author :: others, users') ->
  trace (preHandle w url)
  = trace (fetch_root w tweetId)
      ++ trace (thread_of w
                  (Tweet.mk (Tweet.data root)
                     (TweetIncludes.mk users'
                        (TweetIncludes.media (Tweet.includes root))))
                  conversationId).
Proof.
  intros w url tweetId conversationId root author others users' Hid Hroot Hauthor.
  unfold preHandle. rewrite Hid, (tweetId_truthy _ _ Hid). cbn [negb].
  rewrite trace_bind, Hroot, Hauthor, trace_bind.
  destruct (outcome (thread_of w _ conversationId)); cbn [trace ret fst];
    now rewrite app_nil_r.
Qed.

(** C3 (amended). In a resolution that found its root post and its
    author, the route is decided by one comparison of the creation time of
    the root post with the clock.  A root post of age at most seven days
    (seven days exactly included) goes the recent way: the conversation is
    searched, once, and no browser is launched.  A root post older than
    seven days goes the stale way: a browser is launched, once, for the
    scrape that the batch fetch follows, and no search is made. *)
Theorem age_routing :
  forall w url tweetId conversationId root author others users' created,
  tweetIdFromStatusUrl url = Some tweetId ->
  outcome (fetch_root w tweetId) = inr (conversationId, root) ->
  author_filter (TweetData.author_id (Tweet.data root))
                (TweetIncludes.users (Tweet.includes root))
  = (author :: others, users') ->
  Date_getTime w (TweetData.created_at (Tweet.data root)) = Some created ->
  let age := (Date_now w - created)%Z in
  let calls := trace (preHandle w url) in
  ((age <= SEVEN_DAYS)%Z ->
     calls = trace (fetch_root w tweetId) ++ [GetTweetThread conversationId]
     /\ count is_search calls = 1
     /\ count is_launch calls = 0)
  /\ ((age > SEVEN_DAYS)%Z ->
     calls = trace (fetch_root w tweetId)
               ++ trace (getOldTweets w conversationId)
     /\ count is_search calls = 0
     /\ count is_launch calls = 1).
Proof.
  intros w url tweetId conversationId root author others users' created
         Hid Hroot Hauthor Hc age calls.
  subst age calls.
  rewrite (preHandle_trace _ _ _ _ _ _ _ _ Hid Hroot Hauthor), !count_app.
  destruct (fetch_root_routes w tweetId) as [-> ->].
  pose (tweet := Tweet.mk (Tweet.data root)
                   (TweetIncludes.mk users'
                      (TweetIncludes.media (Tweet.includes root)))).
  destruct (thread_of_by_age w tweet conversationId created Hc) as [Hrecent Hstale].
  fold tweet. split; intros Hage.
  - rewrite (Hrecent Hage).
    destruct (recent_routes w tweet conversationId) as (Hl & _ & Ht).
    cbn zeta in Hl, Ht.
    rewrite Hl, (Ht (fetch_root_needs_token _ _ _ Hroot)). auto.
  - rewrite (Hstale Hage).
    destruct (getOldTweets_routes w conversationId) as (-> & -> & _). auto.
Qed.

Lemma age_routing_witness :
  trace (preHandle Sample.recent_world (L "https://twitter.com/jack/status/20"))
  = [GetTweetById (L "20"); GetTweetThread (L "20")]
  /\ count is_launch
       (trace (preHandle Sample.stale_world (L "https://twitter.com/jack/status/20")))
     = 1.
Proof.
  split.
  - destruct (age_routing Sample.recent_world (L "https://twitter.com/jack/status/20")
                (L "20") (L "20") Sample.root (User.set_id (L "12") Sample.jack) []
                [User.set_id (L "12") Sample.jack] 1000%Z
                eq_refl eq_refl eq_refl eq_refl) as [Hrecent _].
    apply Hrecent. vm_compute. discriminate.
  - destruct (age_routing Sample.stale_world (L "https://twitter.com/jack/status/20")
                (L "20") (L "20") Sample.root (User.set_id (L "12") Sample.jack) []
                [User.set_id (L "12") Sample.jack] 1000%Z
                eq_refl eq_refl eq_refl eq_refl) as [_ Hstale].
    apply Hstale. reflexivity.
Defined.

(** C3, as stated, fails at seven days exactly: the claim sends such a
    post the stale way, the handler searches and launches no browser. *)
Lemma seventh_day_is_recent :
  let w := Sample.seventh_day_world in
  Date_getTime w (TweetData.created_at (Tweet.data Sample.root)) = Some 1000%Z
  /\ (Date_now w - 1000 = SEVEN_DAYS)%Z
  /\ trace (preHandle w (L "https://twitter.com/jack/status/20"))
     = [GetTweetById (L "20"); GetTweetThread (L "20")]
  /\ count is_launch (trace (preHandle w (L "https://twitter.com/jack/status/20")))
     = 0.
Proof. repeat split. Qed.

(** A post whose creation time does not parse goes the recent way. *)
Lemma invalid_date_is_recent : forall w tweet conversationId,
  Date_getTime w (TweetData.created_at (Tweet.data tweet)) = None ->
  thread_of w tweet conversationId
  = (recent <- getRecentTweets w conversationId ;; ret (tweet :: recent)).
Proof.
  intros w tweet conversationId H. unfold thread_of, older_than_7_days.
  now rewrite H.
Qed.

(** X19. A resolution takes at most one of the two routes, at most once:
    over all its calls it launches a browser or searches the conversation at
    most one time in total, whatever the url and whatever the world
    answers. *)
Lemma one_route_per_resolution : forall w url,
  count is_launch (trace (preHandle w url))
  + count is_search (trace (preHandle w url)) <= 1.
Proof.
  intros w url. unfold preHandle.
  destruct (tweetIdFromStatusUrl url) as [tweetId|]; [|cbn; lia].
  destruct (truthy tweetId); [|cbn; lia]. cbn [negb].
  rewrite trace_bind, !count_app.
  destruct (fetch_root_routes w tweetId) as [-> ->].
  destruct (outcome (fetch_root w tweetId)) as [e|[conversationId fetched]];
    [cbn; lia|].
  destruct (author_filter _ _) as [[|author others] users']; [cbn; lia|].
  rewrite trace_bind, !count_app.
  replace (count is_launch match outcome (thread_of w _ conversationId) with
                           | inl _ => []
                           | inr a => trace (ret (mkResult _ url _))
                           end) with 0
    by (destruct (outcome (thread_of w _ conversationId)); reflexivity).
  replace (count is_search match outcome (thread_of w _ conversationId) with
                           | inl _ => []
                           | inr a => trace (ret (mkResult _ url _))
                           end) with 0
    by (destruct (outcome (thread_of w _ conversationId)); reflexivity).
  unfold thread_of. destruct (older_than_7_days w _).
  - destruct (getOldTweets_routes w conversationId) as (-> & -> & _). lia.
  - match goal with |- context [trace (bind (getRecentTweets w ?c) ?f)] =>
      pose proof (recent_routes w
                    (Tweet.mk (Tweet.data fetched)
                       (TweetIncludes.mk users'
                          (TweetIncludes.media (Tweet.includes fetched)))) c)
        as (Hl & Hs & _)
    end.
    cbn zeta in Hl, Hs. rewrite Hl. lia.
Qed.

(** ** The recent path *)

Lemma getTweetsFromResponse_data : forall response,
  map Tweet.data (getTweetsFromResponse response) = Tweets.data response.
Proof.
  intros response. unfold getTweetsFromResponse. rewrite map_map. cbn.
  apply map_id.
Qed.

(** The search alone: the posts of the response, reversed. *)
Lemma getRecentTweets_reversal : forall w conversationId thread,
  has_token w = true ->
  api_search w conversationId = inr thread ->
  TweetMeta.result_count (Tweets.meta thread) <> 0%Z ->
  outcome (getRecentTweets w conversationId)
  = inr (rev (getTweetsFromResponse thread)).
Proof.
  intros w conversationId thread Htok Hs Hn.
  unfold getRecentTweets, getTweetThread, bind, call, ret.
  rewrite Htok, Hs. cbn [negb].
  destruct (Z.eqb_spec (TweetMeta.result_count (Tweets.meta thread)) 0);
    [contradiction|reflexivity].
Qed.

(** C2 (amended). On the recent path the assembled thread is the root post
    followed by the posts of the search response in reverse order (by
    nothing when the response counts no result): the posts after the root
    are the exact reversal of the response. *)
Theorem recent_thread_is_root_then_reversal : forall w tweet conversationId thread,
  older_than_7_days w (TweetData.created_at (Tweet.data tweet)) = false ->
  has_token w = true ->
  api_search w conversationId = inr thread ->
  outcome (thread_of w tweet conversationId)
  = inr (tweet ::
         (if (TweetMeta.result_count (Tweets.meta thread) =? 0)%Z then []
          else rev (getTweetsFromResponse thread)))
  /\ map Tweet.data (rev (getTweetsFromResponse thread))
     = rev (Tweets.data thread).
Proof.
  intros w tweet conversationId thread Hage Htok Hs. split.
  - unfold thread_of. rewrite Hage.
    unfold getRecentTweets, getTweetThread, bind, call, ret.
    rewrite Htok, Hs. cbn [negb].
    now destruct (TweetMeta.result_count (Tweets.meta thread) =? 0)%Z.
  - now rewrite map_rev, getTweetsFromResponse_data.
Qed.

Lemma recent_thread_is_root_then_reversal_witness :
  outcome (thread_of Sample.recent_world Sample.root (L "20"))
  = inr (Sample.root :: rev (getTweetsFromResponse Sample.search3))
  /\ map Tweet.data (rev (getTweetsFromResponse Sample.search3))
     = [Sample.p1; Sample.p2; Sample.p3].
Proof.
  apply (recent_thread_is_root_then_reversal Sample.recent_world Sample.root
           (L "20") Sample.search3); reflexivity.
Defined.

(** C2, as stated, fails: for a search response of three posts the
    assembled thread has four posts, the root post before the reversal. *)
Lemma recent_thread_prepends_root :
  exists tweets,
    outcome (thread_of Sample.recent_world Sample.root (L "20")) = inr tweets
    /\ map Tweet.data tweets
       = [Sample.root_data; Sample.p1; Sample.p2; Sample.p3]
    /\ rev (Tweets.data Sample.search3) = [Sample.p1; Sample.p2; Sample.p3]
    /\ map Tweet.data tweets <> rev (Tweets.data Sample.search3).
Proof.
  eexists. split; [reflexivity|]. repeat split. discriminate.
Qed.

(** ** The author lookup *)

Lemma author_filter_users : forall authorId users,
  snd (author_filter authorId users) = map (User.set_id authorId) users.
Proof.
  induction users as [|u users IH]; [reflexivity|].
  cbn [author_filter map]. destruct (author_filter authorId users).
  cbn [snd] in *. now rewrite IH.
Qed.

Lemma author_filter_selected : forall authorId users,
  authorId <> [] ->
  fst (author_filter authorId users) = map (User.set_id authorId) users.
Proof.
  intros authorId users Hid.
  induction users as [|u users IH]; [reflexivity|].
  cbn [author_filter map]. destruct (author_filter authorId users).
  cbn [fst User.set_id User.id] in *. rewrite IH.
  now destruct authorId.
Qed.

(** C10 (amended). For a list of users that is not empty and an author id
    that is not the empty string, the lookup selects the first user of the
    list whatever the author id is, its [id] overwritten; and, whatever the
    author id, the [id] of every user of the list is overwritten with it. *)
Theorem author_lookup_takes_first_user : forall authorId u users,
  authorId <> [] ->
  hd_error (fst (author_filter authorId (u :: users)))
  = Some (User.set_id authorId u)
  /\ snd (author_filter authorId (u :: users))
     = map (User.set_id authorId) (u :: users).
Proof.
  intros authorId u users Hid. split.
  - now rewrite author_filter_selected.
  - apply author_filter_users.
Qed.

Lemma author_lookup_takes_first_user_witness :
  hd_error (fst (author_filter (L "99") [Sample.jack; Sample.other]))
  = Some (User.set_id (L "99") Sample.jack)
  /\ snd (author_filter (L "99") [Sample.jack; Sample.other])
     = map (User.set_id (L "99")) [Sample.jack; Sample.other].
Proof.
  apply (author_lookup_takes_first_user (L "99") Sample.jack [Sample.other]).
  discriminate.
Defined.

(** C10, as stated, fails for the empty author id: the value of the
    assignment is the empty string, which is falsy, so no user is selected
    (the ids are overwritten all the same) and the resolution throws when it
    reads the name of the author. *)
Lemma empty_author_id_selects_nobody :
  author_filter [] [Sample.jack] = ([], [User.set_id [] Sample.jack])
  /\ hd_error (fst (author_filter [] [Sample.jack])) = None
  /\ outcome (preHandle Sample.anonymous_world
                (L "https://twitter.com/jack/status/20"))
     = inl (TypeError (L "author")).
Proof. repeat split. Qed.

(** ** Escaping and the rendered document *)

Lemma escape_app : forall a b, escape (a ++ b) = escape a ++ escape b.
Proof. intros a b. apply flat_map_app. Qed.

Lemma escape_char_no_markup : forall a, no_markup (escape_char a).
Proof.
  intros a. unfold no_markup, escape_char.
  destruct (Ascii.eqb a "&"%char) eqn:E1; [reflexivity|].
  destruct (Ascii.eqb a "<"%char) eqn:E2; [reflexivity|].
  destruct (Ascii.eqb a ">"%char) eqn:E3; [reflexivity|].
  destruct (Ascii.eqb a dquote) eqn:E4; [reflexivity|].
  destruct (Ascii.eqb a "'"%char) eqn:E5; [reflexivity|].
  destruct (Ascii.eqb a "`"%char) eqn:E6; [reflexivity|].
  cbn [forallb]. unfold is_markup. now rewrite E2, E3, E4, E5, E6.
Qed.

Lemma escape_no_markup : forall s, no_markup (escape s).
Proof.
  induction s as [|a s IH]; [reflexivity|].
  unfold no_markup, escape in *. cbn [flat_map].
  rewrite forallb_app. apply andb_true_iff. split; [|exact IH].
  apply escape_char_no_markup.
Qed.

Lemma escape_lt : forall a b,
  escape (a ++ "<"%char :: b) = escape a ++ L "&lt;" ++ escape b.
Proof. intros a b. now rewrite escape_app. Qed.

(** C1 (amended). In the document of every successful resolution the
    values of the [og:title] and [og:description] metadata are the escaped
    title of the author and the escaped text of the root post: they hold
    none of the characters [<], [>], the double quote, the apostrophe and the
    backquote, and each [<] of the input stands there as [&lt;].  (Nothing
    is said of the paragraphs of the body, which hold the text of the posts
    as it is after the substitution of the url entities.) *)
Theorem metadata_is_escaped : forall w url r,
  outcome (preHandle w url) = inr r ->
  exists conversationId root author others users' head rest,
    api_tweet w conversationId = inr root
    /\ author_filter (TweetData.author_id (Tweet.data root))
                     (TweetIncludes.users (Tweet.includes root))
       = (author :: others, users')
    /\ content r
       = head
           ++ meta_tag (L "og:title") (escape (titleForAuthor author))
           ++ NL ++ spaces 6
           ++ meta_tag (L "og:description")
                       (escape (TweetData.text (Tweet.data root)))
           ++ rest
    /\ title r = escape (titleForAuthor author)
    /\ no_markup (escape (titleForAuthor author))
    /\ no_markup (escape (TweetData.text (Tweet.data root)))
    /\ (forall a b, escape (a ++ "<"%char :: b) = escape a ++ L "&lt;" ++ escape b).
Proof.
  intros w url r Hr.
  apply preHandle_success in Hr
    as (tweetId & cid & fetched & author & others & users' & tweets
        & _ & Hroot & Hauthor & _ & ->).
  apply fetch_root_by_conversation_id in Hroot.
  exists cid, fetched, author, others, users'.
  eexists (NL ++ spaces 4 ++ L "<head>" ++ NL
              ++ spaces 6 ++ meta_tag (L "og:image") _ ++ NL
              ++ spaces 6 ++ meta_tag (L "og:image:secure_url") _ ++ NL
              ++ spaces 6).
  eexists. repeat split; trivial.
  - cbn [content]. unfold document_of, render_content.
    rewrite <- !app_assoc. reflexivity.
  - apply escape_no_markup.
  - apply escape_no_markup.
  - apply escape_lt.
Qed.

Lemma metadata_is_escaped_witness :
  match outcome (preHandle Sample.markup_world
                   (L "https://twitter.com/jack/status/20")) with
  | inl _ => False
  | inr r =>
      exists conversationId root author others users' head rest,
        api_tweet Sample.markup_world conversationId = inr root
        /\ author_filter (TweetData.author_id (Tweet.data root))
                         (TweetIncludes.users (Tweet.includes root))
           = (author :: others, users')
        /\ content r
           = head
               ++ meta_tag (L "og:title") (escape (titleForAuthor author))
               ++ NL ++ spaces 6
               ++ meta_tag (L "og:description")
                           (escape (TweetData.text (Tweet.data root)))
               ++ rest
        /\ title r = escape (titleForAuthor author)
        /\ no_markup (escape (titleForAuthor author))
        /\ no_markup (escape (TweetData.text (Tweet.data root)))
        /\ (forall a b,
              escape (a ++ "<"%char :: b) = escape a ++ L "&lt;" ++ escape b)
  end.
Proof.
  exact (metadata_is_escaped Sample.markup_world
           (L "https://twitter.com/jack/status/20") _ eq_refl).
Defined.

(** C1, as stated, fails for the body: the text of a post goes into its
    paragraph as it is, so markup in it reaches the document, while the
    description holds the same text escaped. *)
Lemma body_text_is_not_escaped :
  exists r,
    outcome (preHandle Sample.markup_world (L "https://twitter.com/jack/status/20"))
    = inr r
    /\ includes (L "<p><script>alert(1)</script></p>") (content r) = true
    /\ includes (L "<p>&lt;script&gt;alert(1)&lt;/script&gt;</p>") (content r) = false
    /\ includes (L "&lt;script&gt;alert(1)&lt;/script&gt;" ++ DQ ++ L " />")
                (content r) = true.
Proof. eexists. split; [reflexivity|]. vm_compute. auto. Qed.

(** Without url entities the text of a post is rendered as it is. *)
Lemma render_text_verbatim : forall tweetData,
  TweetData.entities tweetData = None ->
  render_text tweetData = TweetData.text tweetData.
Proof. intros tweetData H. unfold render_text. now rewrite H. Qed.

(** ** The substitution of url entities *)

Lemma prefix_of_longer : forall (x y s1 s2 : str),
  x ++ s1 = y ++ s2 -> length y <= length x -> exists q, x = y ++ q.
Proof.
  induction x as [|a x IH]; intros [|b y] s1 s2 H Hl; cbn in *.
  - now exists [].
  - lia.
  - now exists (a :: x).
  - inversion H; subst. destruct (IH y s1 s2) as (q & ->); [assumption|lia|].
    now exists q.
Qed.

Lemma first_occurrence_tail : forall pat a before,
  first_occurrence pat (a :: before) -> first_occurrence pat before.
Proof.
  intros pat a before H p q E. apply (H (a :: p) q). cbn. now f_equal.
Qed.

Lemma indexOf_unfold : forall pat text,
  indexOf pat text
  = match strip_prefix pat text with
    | Some _ => Some 0
    | None =>
        match text with
        | [] => None
        | _ :: text' => option_map S (indexOf pat text')
        end
    end.
Proof. now intros pat [|a text]. Qed.

Lemma indexOf_first_occurrence : forall pat before after,
  first_occurrence pat before ->
  indexOf pat (before ++ pat ++ after) = Some (length before).
Proof.
  induction before as [|a before IH]; intros after H.
  - cbn [app length]. now rewrite indexOf_unfold, strip_prefix_app.
  - cbn [app length indexOf].
    destruct (strip_prefix pat (a :: before ++ pat ++ after)) as [s'|] eqn:E.
    + apply strip_prefix_sound in E.
      change (a :: before ++ pat ++ after)
        with ((a :: before) ++ pat ++ after) in E.
      rewrite app_assoc in E.
      apply prefix_of_longer in E as (q & E);
        [|rewrite length_app; lia].
      specialize (H [] q). cbn [app] in H. specialize (H E). subst q.
      apply (f_equal (@length ascii)) in E.
      rewrite app_nil_r, length_app in E. cbn [length] in E. lia.
    + rewrite (IH after (first_occurrence_tail _ _ _ H)). reflexivity.
Qed.

Lemma indexOf_empty_pattern : forall text, indexOf [] text = Some 0.
Proof. now intros [|a text]. Qed.

Lemma getSubstitution_dollar_free : forall matched before after templ,
  dollar_free templ -> getSubstitution matched before after templ = templ.
Proof.
  unfold dollar_free. induction templ as [|c t IH]; intros H; [reflexivity|].
  cbn [existsb] in H. apply orb_false_iff in H as [Hc Ht].
  cbn [getSubstitution]. rewrite Ascii.eqb_sym, Hc. now rewrite IH.
Qed.

Lemma firstn_length_app : forall (a b : str), firstn (length a) (a ++ b) = a.
Proof. induction a as [|x a IH]; intros b; cbn; [reflexivity|now rewrite IH]. Qed.

Lemma skipn_length_app : forall (a b c : str),
  skipn (length a + length b) (a ++ b ++ c) = c.
Proof.
  induction a as [|x a IH]; intros b c; cbn; [|apply IH].
  induction b as [|y b IHb]; cbn; [reflexivity|apply IHb].
Qed.

(** One replacement: the first occurrence of the pattern, and only it. *)
Lemma js_replace_first_occurrence : forall pat before after repl,
  first_occurrence pat before ->
  js_replace (before ++ pat ++ after) pat repl
  = before ++ getSubstitution pat before after repl ++ after.
Proof.
  intros pat before after repl H. unfold js_replace.
  rewrite (indexOf_first_occurrence _ _ _ H). cbv zeta.
  now rewrite firstn_length_app, skipn_length_app.
Qed.

(** A text in which the pattern does not occur is left as it is. *)
Lemma js_replace_absent : forall text pat repl,
  indexOf pat text = None -> js_replace text pat repl = text.
Proof. intros text pat repl H. unfold js_replace. now rewrite H. Qed.

Lemma anchor_dollar_free : forall e,
  dollar_free (UrlObj.expanded_url e) -> dollar_free (UrlObj.display_url e) ->
  dollar_free (anchor e).
Proof.
  unfold dollar_free, anchor. intros e H1 H2.
  rewrite !existsb_app, H1, H2. reflexivity.
Qed.

Lemma substitution_of_well_placed : forall items done tail,
  well_placed done items ->
  fold_left (fun text urlObj => js_replace text (UrlObj.url urlObj) (anchor urlObj))
            (map snd items) (done ++ plain items tail)
  = done ++ linked items tail.
Proof.
  induction items as [|[seg e] items IH]; intros done tail H; [reflexivity|].
  destruct H as (Hfirst & Hx & Hd & Hrest).
  cbn [map snd fold_left plain linked].
  replace (done ++ seg ++ UrlObj.url e ++ plain items tail)
    with ((done ++ seg) ++ UrlObj.url e ++ plain items tail)
    by now rewrite <- app_assoc.
  rewrite js_replace_first_occurrence by assumption.
  rewrite getSubstitution_dollar_free by now apply anchor_dollar_free.
  replace ((done ++ seg) ++ anchor e ++ plain items tail)
    with ((done ++ seg ++ anchor e) ++ plain items tail)
    by now rewrite <- !app_assoc.
  rewrite IH by assumption. now rewrite <- !app_assoc.
Qed.

(** X15. What does hold of the substitution: when the text of a post is cut at
    the urls of its entities, taken in order, when each url is met first at
    its own place in the text rendered so far, and when no expanded or
    display url holds a dollar sign, every url is replaced by its anchor and
    the text around the urls is kept as it is. *)
Lemma render_text_well_placed : forall items tail tweetData,
  TweetData.text tweetData = plain items tail ->
  TweetData.entities tweetData = Some (map snd items) ->
  well_placed [] items ->
  render_text tweetData = linked items tail.
Proof.
  intros items tail tweetData Ht He H. unfold render_text. rewrite He, Ht.
  apply (substitution_of_well_placed items [] tail H).
Qed.

(** A test of [first_occurrence] that computes. *)
Lemma indexOf_occurrence : forall pat p q,
  exists i, indexOf pat (p ++ pat ++ q) = Some i /\ i <= length p.
Proof.
  induction p as [|a p IH]; intros q.
  - exists 0. cbn [app]. now rewrite indexOf_unfold, strip_prefix_app.
  - cbn [app indexOf].
    destruct (strip_prefix pat (a :: p ++ pat ++ q)).
    + exists 0. split; [reflexivity|lia].
    + destruct (IH q) as (i & -> & Hi). exists (S i). split; [reflexivity|].
      cbn [length]. lia.
Qed.

Lemma first_occurrence_by_indexOf : forall pat before,
  indexOf pat (before ++ pat) = Some (length before) ->
  first_occurrence pat before.
Proof.
  intros pat before H p q E.
  destruct (indexOf_occurrence pat p q) as (i & Hi & Hle).
  rewrite <- E, H in Hi. inversion Hi; subst i.
  apply (f_equal (@length ascii)) in E. rewrite !length_app in E.
  destruct q; [reflexivity|]. cbn [length] in E. lia.
Qed.

Example two_links_rendered :
  render_text Sample.two_links_post
  = L "read " ++ anchor Sample.entity_a ++ L " then " ++ anchor Sample.entity_b
      ++ L " (http://untracked.example)".
Proof.
  apply (render_text_well_placed Sample.two_links (L " (http://untracked.example)"));
    [reflexivity|reflexivity|].
  repeat split; try apply first_occurrence_by_indexOf; reflexivity.
Defined.

(** C6 fails on the code: the anchor is handed to [replace] as a
    replacement pattern, in which [$&] stands for the matched text.  The
    entity of the sample post expands to [https://example.com/?a=$&b=1]; the
    rendered anchor links to another address, with the short url in it. *)
Lemma dollar_pattern_corrupts_anchor :
  render_text Sample.dollar_post
  = L "see <a href=" ++ DQ ++ L "https://example.com/?a=https://t.co/abcb=1"
      ++ DQ ++ L ">example.com</a>"
  /\ L "see " ++ anchor Sample.dollar_entity
     = L "see <a href=" ++ DQ ++ L "https://example.com/?a=$&b=1"
         ++ DQ ++ L ">example.com</a>"
  /\ render_text Sample.dollar_post <> L "see " ++ anchor Sample.dollar_entity
  /\ includes (anchor Sample.dollar_entity) (render_text Sample.dollar_post) = false.
Proof. vm_compute. repeat split. discriminate. Qed.

(** * Further properties of the handler *)

(** ** The credential and the url *)

Lemma regexp_test_matches : forall url,
  regexp_test TWITTER_URL_MATCH url = true <-> matches_pattern url.
Proof.
  intros url. unfold regexp_test. split.
  - destruct (regexp_exec TWITTER_URL_MATCH url) as [m|] eqn:E; [|discriminate].
    intros _. apply regexp_exec_sound in E as (before & s0 & -> & E).
    apply twitter_match_sound in E as (id & rest & Hs & _ & _).
    exists before, id, rest. now apply status_url_at_unshift.
  - intros (before & id & rest & H).
    apply status_url_at_shift in H as (s0 & -> & H).
    apply twitter_match_complete in H.
    apply (regexp_exec_complete _ before) in H.
    now destruct (regexp_exec TWITTER_URL_MATCH (before ++ s0)).
Qed.

Lemma tweetIdFromStatusUrl_none : forall url,
  ~ matches_pattern url -> tweetIdFromStatusUrl url = None.
Proof.
  intros url H. destruct (tweetIdFromStatusUrl url) as [id|] eqn:E; [|reflexivity].
  apply tweetIdFromStatusUrl_some in E as (before & rest & Hs & _).
  elim H. now exists before, id, rest.
Qed.

Lemma fetch_root_without_token : forall w tweetId,
  has_token w = false -> fetch_root w tweetId = ([], inl no_token).
Proof.
  intros w tweetId H. unfold fetch_root, getTweetById. now rewrite H.
Qed.

Lemma fetch_root_first_call : forall w tweetId,
  has_token w = true ->
  exists rest, trace (fetch_root w tweetId) = GetTweetById tweetId :: rest.
Proof.
  intros w tweetId H. unfold fetch_root, getTweetById. rewrite H. cbn [negb].
  rewrite trace_bind. cbn [call trace fst app]. eauto.
Qed.

(** X1. Without a bearer token (none, or the empty string) each of the
    three fetchers throws before it sends a request, and a resolution makes
    no outside call at all: no request, no browser.  For a url that holds a
    status link it throws the missing-token error. *)
Theorem no_token_no_call : forall w,
  has_token w = false ->
  (forall id, getTweetById w id = ([], inl no_token))
  /\ (forall conversationId, getTweetThread w conversationId = ([], inl no_token))
  /\ (forall ids, getTweetsByIds w ids = ([], inl no_token))
  /\ (forall url, trace (preHandle w url) = [])
  /\ (forall url, matches_pattern url -> outcome (preHandle w url) = inl no_token).
Proof.
  intros w H.
  assert (Hpre : forall url tweetId,
            tweetIdFromStatusUrl url = Some tweetId ->
            preHandle w url = ([], inl no_token)).
  { intros url tweetId Hid. unfold preHandle.
    rewrite Hid, (tweetId_truthy _ _ Hid). cbn [negb].
    now rewrite (fetch_root_without_token _ _ H). }
  repeat split.
  - intros id. unfold getTweetById. now rewrite H.
  - intros c. unfold getTweetThread. now rewrite H.
  - intros ids. unfold getTweetsByIds. now rewrite H.
  - intros url. destruct (tweetIdFromStatusUrl url) as [tweetId|] eqn:Hid.
    + now rewrite (Hpre _ _ Hid).
    + unfold preHandle. now rewrite Hid.
  - intros url Hm. apply tweetIdFromStatusUrl_matches in Hm.
    destruct (tweetIdFromStatusUrl url) as [tweetId|] eqn:Hid; [|contradiction].
    now rewrite (Hpre _ _ Hid).
Qed.

Lemma no_token_no_call_witness :
  trace (preHandle Sample.tokenless_world (L "https://twitter.com/jack/status/20")) = []
  /\ outcome (getTweetsByIds Sample.tokenless_world [L "20"]) = inl no_token.
Proof.
  destruct (no_token_no_call Sample.tokenless_world eq_refl)
    as (_ & _ & Hbatch & Htrace & _).
  split; [apply Htrace|now rewrite Hbatch].
Defined.

(** X2. [shouldPreHandle] accepts a url exactly when a token is configured
    and the url matches the pattern; and for a url it accepts, [preHandle]
    finds the identifier and starts with the fetch of that post. *)
Theorem shouldPreHandle_spec : forall w url,
  (shouldPreHandle w url = true <-> has_token w = true /\ matches_pattern url)
  /\ (shouldPreHandle w url = true ->
      exists tweetId rest,
        tweetIdFromStatusUrl url = Some tweetId
        /\ trace (preHandle w url) = GetTweetById tweetId :: rest).
Proof.
  intros w url.
  assert (Hiff : shouldPreHandle w url = true
                 <-> has_token w = true /\ matches_pattern url).
  { unfold shouldPreHandle. rewrite andb_true_iff, regexp_test_matches. tauto. }
  split; [exact Hiff|].
  intros H. apply Hiff in H as [Htok Hm].
  apply tweetIdFromStatusUrl_matches in Hm.
  destruct (tweetIdFromStatusUrl url) as [tweetId|] eqn:Hid; [|contradiction].
  destruct (fetch_root_first_call w tweetId Htok) as (rest & Hrest).
  exists tweetId. eexists. split; [reflexivity|].
  unfold preHandle. rewrite Hid, (tweetId_truthy _ _ Hid). cbn [negb].
  rewrite trace_bind, Hrest. cbn [app]. reflexivity.
Qed.

(** X3. [preHandle] throws the could-not-find-tweet-id error, without any
    outside call, exactly for the urls that do not match the pattern. *)
Theorem unrecognised_url_throws : forall w url,
  preHandle w url = ([], inl no_tweet_id) <-> ~ matches_pattern url.
Proof.
  intros w url. split.
  - intros H Hm. apply tweetIdFromStatusUrl_matches in Hm.
    destruct (tweetIdFromStatusUrl url) as [tweetId|] eqn:Hid; [|contradiction].
    destruct (has_token w) eqn:Htok.
    + destruct (fetch_root_first_call w tweetId Htok) as (rest & Hrest).
      apply (f_equal trace) in H. unfold preHandle in H.
      rewrite Hid, (tweetId_truthy _ _ Hid) in H. cbn [negb] in H.
      rewrite trace_bind, Hrest in H. discriminate.
    + unfold preHandle in H.
      rewrite Hid, (tweetId_truthy _ _ Hid) in H. cbn [negb] in H.
      rewrite (fetch_root_without_token _ _ Htok) in H. discriminate.
  - intros H. unfold preHandle. now rewrite (tweetIdFromStatusUrl_none _ H).
Qed.

(** ** Failures on the way *)

Lemma preHandle_unfold : forall w url tweetId,
  tweetIdFromStatusUrl url = Some tweetId ->
  preHandle w url
  = (fetched <- fetch_root w tweetId ;;
     let (conversationId, fetchedTweet) := fetched in
     let tweetData := Tweet.data fetchedTweet in
     let authorId := TweetData.author_id tweetData in
     let (selected, users') :=
       author_filter authorId (TweetIncludes.users (Tweet.includes fetchedTweet)) in
     let tweet :=
       Tweet.mk tweetData
         (TweetIncludes.mk users' (TweetIncludes.media (Tweet.includes fetchedTweet))) in
     match selected with
     | [] => throw (TypeError (L "author"))
     | author :: _ =>
         tweets <- thread_of w tweet conversationId ;;
         ret (mkResult (document_of w url author tweetData tweets)
                       url
                       (escape (titleForAuthor author)))
     end).
Proof.
  intros w url tweetId Hid. unfold preHandle.
  now rewrite Hid, (tweetId_truthy _ _ Hid).
Qed.

Lemma bind_throws : forall (A B : Type) (m : M A) (f : A -> M B) t e,
  m = (t, inl e) -> bind m f = (t, inl e).
Proof. intros A B m f t e ->. reflexivity. Qed.

(** X4. A failure of the API is not caught, and nothing is tried again:
    when the fetch of the post of the url fails with [e] the resolution
    throws [e] after that one request; when that post is a reply and the
    fetch of its conversation root fails with [e], it throws [e] after the
    two requests; and when the assembly of the thread throws [e], so does
    the resolution (no partial document is returned). *)
Theorem fetch_errors_propagate : forall w url tweetId,
  tweetIdFromStatusUrl url = Some tweetId ->
  has_token w = true ->
  (forall e, api_tweet w tweetId = inl e ->
     preHandle w url = ([GetTweetById tweetId], inl e))
  /\ (forall tweet e,
        api_tweet w tweetId = inr tweet ->
        TweetData.conversation_id (Tweet.data tweet) <> tweetId ->
        api_tweet w (TweetData.conversation_id (Tweet.data tweet)) = inl e ->
        preHandle w url
        = ([GetTweetById tweetId;
            GetTweetById (TweetData.conversation_id (Tweet.data tweet))],
           inl e))
  /\ (forall conversationId root author others users' e,
        outcome (fetch_root w tweetId) = inr (conversationId, root) ->
        author_filter (TweetData.author_id (Tweet.data root))
                      (TweetIncludes.users (Tweet.includes root))
        = (author :: others, users') ->
        outcome (thread_of w
                   (Tweet.mk (Tweet.data root)
                      (TweetIncludes.mk users'
                         (TweetIncludes.media (Tweet.includes root))))
                   conversationId) = inl e ->
        outcome (preHandle w url) = inl e).
Proof.
  intros w url tweetId Hid Htok. repeat split.
  - intros e He. rewrite (preHandle_unfold _ _ _ Hid).
    apply bind_throws. unfold fetch_root, getTweetById. rewrite Htok. cbn [negb].
    apply bind_throws. unfold call. now rewrite He.
  - intros tweet e Ht Hneq He. rewrite (preHandle_unfold _ _ _ Hid).
    apply bind_throws.
    rewrite (fetch_root_reply w tweetId tweet Htok Ht Hneq). cbn zeta.
    now rewrite He.
  - intros conversationId root author others users' e Hroot Hauthor Hthread.
    rewrite (preHandle_unfold _ _ _ Hid), outcome_bind, Hroot.
    cbn beta iota zeta. rewrite Hauthor.
    now rewrite outcome_bind, Hthread.
Qed.

Lemma fetch_errors_propagate_witness :
  preHandle Sample.failing_api_world (L "https://twitter.com/jack/status/20")
  = ([GetTweetById (L "20")], inl Sample.not_found)
  /\ preHandle Sample.orphan_reply_world (L "https://twitter.com/else/status/23")
     = ([GetTweetById (L "23"); GetTweetById (L "20")], inl Sample.not_found).
Proof.
  split.
  - apply (fetch_errors_propagate Sample.failing_api_world
             (L "https://twitter.com/jack/status/20") (L "20") eq_refl eq_refl).
    reflexivity.
  - apply (fetch_errors_propagate Sample.orphan_reply_world
             (L "https://twitter.com/else/status/23") (L "23") eq_refl eq_refl
           ) with (tweet := Sample.reply);
      [reflexivity|vm_compute; discriminate|reflexivity].
Defined.

Lemma author_filter_nobody : forall authorId users,
  fst (author_filter authorId users) = [] <-> users = [] \/ authorId = [].
Proof.
  intros authorId users. split.
  - intros H. destruct authorId as [|a authorId]; [now right|left].
    rewrite author_filter_selected in H by discriminate.
    now destruct users.
  - intros [-> | ->]; [reflexivity|].
    induction users as [|u users IH]; [reflexivity|].
    cbn [author_filter]. destruct (author_filter [] users). exact IH.
Qed.

(** X5. When the root post comes without any user, or with the empty
    string as author id, no author is found: the resolution throws a
    TypeError right after the fetch of the root, before it searches the
    conversation or launches a browser. *)
Theorem missing_author_throws_before_thread :
  forall w url tweetId conversationId root,
  tweetIdFromStatusUrl url = Some tweetId ->
  outcome (fetch_root w tweetId) = inr (conversationId, root) ->
  TweetIncludes.users (Tweet.includes root) = []
  \/ TweetData.author_id (Tweet.data root) = [] ->
  preHandle w url = (trace (fetch_root w tweetId), inl (TypeError (L "author")))
  /\ count is_search (trace (preHandle w url)) = 0
  /\ count is_launch (trace (preHandle w url)) = 0.
Proof.
  intros w url tweetId conversationId root Hid Hroot Hnobody.
  apply author_filter_nobody in Hnobody.
  assert (E : preHandle w url
              = (trace (fetch_root w tweetId), inl (TypeError (L "author")))).
  { rewrite (preHandle_unfold _ _ _ Hid).
    destruct (fetch_root w tweetId) as [t r] eqn:Ef.
    unfold outcome in Hroot. cbn [snd] in Hroot. subst r.
    unfold bind. cbn [trace fst].
    destruct (author_filter _ _) as [selected users']. cbn [fst] in Hnobody.
    subst selected. cbn. now rewrite app_nil_r. }
  rewrite E. cbn [trace fst].
  destruct (fetch_root_routes w tweetId) as [Hl Hs]. auto.
Qed.

Lemma missing_author_throws_before_thread_witness :
  preHandle Sample.userless_world (L "https://twitter.com/jack/status/20")
  = ([GetTweetById (L "20")], inl (TypeError (L "author")))
  /\ count is_search
       (trace (preHandle Sample.userless_world
                 (L "https://twitter.com/jack/status/20"))) = 0
  /\ count is_launch
       (trace (preHandle Sample.userless_world
                 (L "https://twitter.com/jack/status/20"))) = 0.
Proof.
  apply (missing_author_throws_before_thread Sample.userless_world
           (L "https://twitter.com/jack/status/20") (L "20") (L "20")
           Sample.userless_root eq_refl eq_refl).
  left. reflexivity.
Defined.

(** X6. A root post whose creation time does not parse (its time is NaN,
    and a comparison with NaN is false) goes the recent way: the resolution
    searches the conversation and launches no browser, however old the post
    is. *)
Theorem unparsable_date_goes_recent :
  forall w url tweetId conversationId root author others users',
  tweetIdFromStatusUrl url = Some tweetId ->
  outcome (fetch_root w tweetId) = inr (conversationId, root) ->
  author_filter (TweetData.author_id (Tweet.data root))
                (TweetIncludes.users (Tweet.includes root))
  = (author :: others, users') ->
  Date_getTime w (TweetData.created_at (Tweet.data root)) = None ->
  trace (preHandle w url)
  = trace (fetch_root w tweetId) ++ [GetTweetThread conversationId]
  /\ count is_launch (trace (preHandle w url)) = 0.
Proof.
  intros w url tweetId conversationId root author others users'
         Hid Hroot Hauthor Hdate.
  rewrite (preHandle_trace _ _ _ _ _ _ _ _ Hid Hroot Hauthor), count_app.
  destruct (fetch_root_routes w tweetId) as [-> _].
  rewrite invalid_date_is_recent by exact Hdate.
  match goal with |- context [trace (bind (getRecentTweets w ?c) ?f)] =>
    pose proof (recent_routes w
                  (Tweet.mk (Tweet.data root)
                     (TweetIncludes.mk users'
                        (TweetIncludes.media (Tweet.includes root)))) c)
      as (Hl & _ & Ht)
  end.
  cbn zeta in Hl, Ht.
  rewrite Hl, (Ht (fetch_root_needs_token _ _ _ Hroot)). auto.
Qed.

Lemma unparsable_date_goes_recent_witness :
  trace (preHandle Sample.undated_world (L "https://twitter.com/jack/status/20"))
  = [GetTweetById (L "20"); GetTweetThread (L "20")]
  /\ count is_launch
       (trace (preHandle Sample.undated_world
                 (L "https://twitter.com/jack/status/20"))) = 0.
Proof.
  exact (unparsable_date_goes_recent Sample.undated_world
           (L "https://twitter.com/jack/status/20") (L "20") (L "20") Sample.root
           (User.set_id (L "12") Sample.jack) []
           [User.set_id (L "12") Sample.jack] eq_refl eq_refl eq_refl eq_refl).
Defined.

(** ** The posts of a response *)

Lemma existsb_str_eqb : forall key keys,
  existsb (str_eqb key) keys = true <-> In key keys.
Proof.
  intros key keys. rewrite existsb_exists. split.
  - intros (x & Hin & Heq). apply str_eqb_eq in Heq. now subst.
  - intros H. exists key. split; [exact H|now apply str_eqb_eq].
Qed.

Lemma attached_iff : forall t m,
  attached t m = true
  <-> exists keys,
        TweetData.attachments t = Some keys /\ In (Media.media_key m) keys.
Proof.
  intros t m. unfold attached.
  destruct (TweetData.attachments t) as [keys|].
  - destruct (in_dec (list_eq_dec ascii_dec) (Media.media_key m) keys) as [H|H].
    + split; [|reflexivity]. intros _. now exists keys.
    + split; [discriminate|]. intros (keys' & E & Hin). inversion E; now subst.
  - split; [discriminate|]. now intros (keys & E & _).
Qed.

Lemma media_of_attached : forall response t,
  media_of response t
  = option_map (filter (attached t))
               (TweetIncludes.media (Tweets.includes response)).
Proof.
  intros response t. unfold media_of.
  destruct (TweetIncludes.media (Tweets.includes response)) as [all|];
    [|reflexivity].
  cbn [option_map]. f_equal. apply filter_ext.
  intros m. unfold attached.
  destruct (TweetData.attachments t) as [keys|]; [|reflexivity].
  destruct (in_dec (list_eq_dec ascii_dec) (Media.media_key m) keys) as [H|H].
  - now apply existsb_str_eqb.
  - destruct (existsb (str_eqb (Media.media_key m)) keys) eqn:E; [|reflexivity].
    now apply existsb_str_eqb in E.
Qed.

(** X7. [getTweetsFromResponse] joins each post of a response to its
    media.  It yields exactly one post view per post of the response, in
    the order of the response: the posts of the views are the posts of the
    response, one for one.  Each view shares the users of the response.
    When the response has media, the media of a view are the media of the
    response that are attached to its post (their key is among its
    attachments), in the order of the response: a key without media is
    dropped, a post without attachments gets none; when the response has no
    media the view has no media list.  A post without attachments renders
    no media. *)
Theorem getTweetsFromResponse_join : forall response,
  map Tweet.data (getTweetsFromResponse response) = Tweets.data response
  /\ (forall i, i < length (Tweets.data response) ->
      exists t tweet,
        nth_error (Tweets.data response) i = Some t
        /\ nth_error (getTweetsFromResponse response) i = Some tweet
        /\ Tweet.data tweet = t)
  /\ (forall tweet, In tweet (getTweetsFromResponse response) ->
      TweetIncludes.users (Tweet.includes tweet)
      = TweetIncludes.users (Tweets.includes response)
      /\ TweetIncludes.media (Tweet.includes tweet)
         = option_map (filter (attached (Tweet.data tweet)))
                      (TweetIncludes.media (Tweets.includes response))
      /\ (forall ms m,
            TweetIncludes.media (Tweet.includes tweet) = Some ms ->
            (In m ms
             <-> (exists all,
                    TweetIncludes.media (Tweets.includes response) = Some all
                    /\ In m all)
                 /\ exists keys,
                      TweetData.attachments (Tweet.data tweet) = Some keys
                      /\ In (Media.media_key m) keys))
      /\ (forall url,
            TweetData.attachments (Tweet.data tweet) = None ->
            includesHtml url tweet = [])).
Proof.
  intros response.
  pose proof (getTweetsFromResponse_data response) as Hdata.
  split; [exact Hdata|]. split.
  - intros i Hi.
    destruct (nth_error (Tweets.data response) i) as [t|] eqn:Et;
      [|apply nth_error_None in Et; lia].
    pose proof Et as Ev. rewrite <- Hdata, nth_error_map in Ev.
    destruct (nth_error (getTweetsFromResponse response) i) as [tweet|];
      [|discriminate].
    cbn in Ev. inversion Ev. now exists t, tweet.
  - intros tweet H. unfold getTweetsFromResponse in H.
    apply in_map_iff in H as (t & <- & Hin).
    cbn [Tweet.data Tweet.includes TweetIncludes.users TweetIncludes.media].
    rewrite media_of_attached. repeat split; trivial.
    + destruct (TweetIncludes.media (Tweets.includes response)) as [all|];
        [|discriminate].
      cbn [option_map] in H. inversion H; subst ms.
      apply filter_In in H0 as [Hm _]. now exists all.
    + destruct (TweetIncludes.media (Tweets.includes response)) as [all|];
        [|discriminate].
      cbn [option_map] in H. inversion H; subst ms.
      apply filter_In in H0 as [_ Ha]. now apply attached_iff.
    + intros [(all & Eall & Hm) Hk]. rewrite Eall in H.
      cbn [option_map] in H. inversion H; subst ms.
      apply filter_In. split; [exact Hm|now apply attached_iff].
    + intros url Hnone. unfold includesHtml.
      cbn [Tweet.includes TweetIncludes.media]. rewrite ?media_of_attached.
      destruct (TweetIncludes.media (Tweets.includes response)) as [all|];
        [|reflexivity].
      cbn [option_map].
      replace (filter (attached t) all) with (@nil Media.t); [reflexivity|].
      unfold attached. rewrite Hnone.
      induction all as [|m all IH]; [reflexivity|exact IH].
Qed.

Example join_of_media_response :
  map (fun tweet =>
         option_map (map Media.media_key)
                    (TweetIncludes.media (Tweet.includes tweet)))
      (getTweetsFromResponse Sample.media_response)
  = [Some [L "k1"; L "k2"]; Some []; Some []]
  /\ map Tweet.data (getTweetsFromResponse Sample.media_response)
     = Tweets.data Sample.media_response.
Proof. split; reflexivity. Qed.

(** ** The stale path *)

Lemma getTweetIds_returns : forall w tweetId ids,
  outcome (getTweetIds w tweetId) = inr ids ->
  puppeteer_launch w = None
  /\ browser_close w = None
  /\ (ids = []
      \/ scan_exception w tweetId = None
         /\ ids = in_page_script (page_document w)).
Proof.
  intros w tweetId ids. unfold getTweetIds, scan_exception.
  destruct (puppeteer_launch w), (browser_newPage w), (page_goto w _),
    (page_evaluate w), (browser_close w); cbn; intros H; inversion H; auto.
Qed.

Lemma getTweetIds_no_batch_fetch : forall w tweetId ids,
  ~ In (GetTweetsByIds ids) (trace (getTweetIds w tweetId)).
Proof.
  intros w tweetId ids. unfold getTweetIds.
  destruct (puppeteer_launch w), (browser_newPage w), (page_goto w _),
    (page_evaluate w), (browser_close w); cbn; intuition discriminate.
Qed.

Lemma link_ids_sound : forall nodes id,
  In id (link_ids nodes) -> well_formed_id id /\ trails_a_link nodes id.
Proof.
  intros nodes id H. unfold link_ids in H.
  apply in_flat_map in H as (node & Hnode & Hid).
  destruct (link_id node) as [id'|] eqn:E; [|contradiction].
  destruct Hid as [->|[]].
  unfold link_id in E.
  destruct (Dom.parentElement node) as [parent|] eqn:Ep; [|discriminate].
  destruct (str_eqb (Dom.el_tagName parent) (L "SPAN")); [discriminate|].
  destruct (Dom.href parent) as [href|] eqn:Eh; [|discriminate].
  destruct (last_segment_spec href) as [Hslash Hcut].
  destruct (last_segment href) as [|a seg] eqn:El; [discriminate|].
  inversion E; subst id. split.
  - split; [discriminate|exact Hslash].
  - exists node, parent, href. auto.
Qed.

Lemma firstn_In : forall (A : Type) n (l : list A) x, In x (firstn n l) -> In x l.
Proof.
  intros A n l x H. rewrite <- (firstn_skipn n l). apply in_or_app. now left.
Qed.

Lemma in_page_script_bounded : forall doc,
  length (in_page_script doc) <= MAX_THREAD_DEPTH.
Proof.
  intros doc. rewrite in_page_script_spec, length_link_ids.
  eapply Nat.le_trans; [apply filter_length_le|apply firstn_le_length].
Qed.

(** X8. The identifiers that the fallback returns are at most 100, and
    none is invented: each is not empty, holds no slash, and is what follows
    the last slash of the [href] of the parent of a [time] element of the
    page. *)
Theorem recovered_ids_well_formed : forall w tweetId ids,
  outcome (getTweetIds w tweetId) = inr ids ->
  length ids <= MAX_THREAD_DEPTH
  /\ (forall id, In id ids ->
        well_formed_id id
        /\ trails_a_link (scanned_nodes (page_document w)) id).
Proof.
  intros w tweetId ids H.
  apply getTweetIds_returns in H as (_ & _ & [-> | [_ ->]]).
  - split; [cbn; lia|intros id []].
  - split; [apply in_page_script_bounded|].
    intros id Hid. rewrite in_page_script_spec in Hid.
    apply link_ids_sound in Hid as [Hwf (node & parent & href & Hn & Hrest)].
    split; [exact Hwf|]. exists node, parent, href.
    split; [now apply firstn_In in Hn|exact Hrest].
Qed.

Lemma recovered_ids_well_formed_witness :
  length [L "20"; L "23"] <= MAX_THREAD_DEPTH
  /\ (forall id, In id [L "20"; L "23"] ->
        well_formed_id id
        /\ trails_a_link (scanned_nodes (page_document Sample.stale_world)) id).
Proof.
  exact (recovered_ids_well_formed Sample.stale_world (L "20")
           [L "20"; L "23"] eq_refl).
Defined.

(** X9. The batch fetch of the stale path is made once the browser is
    closed, as the last call, with the identifiers that the fallback
    returned, which are at most 100. *)
Theorem batch_fetch_follows_closed_browser : forall w conversationId ids,
  In (GetTweetsByIds ids) (trace (getOldTweets w conversationId)) ->
  outcome (getTweetIds w conversationId) = inr ids
  /\ trace (getOldTweets w conversationId)
     = trace (getTweetIds w conversationId) ++ [GetTweetsByIds ids]
  /\ last (trace (getTweetIds w conversationId)) Launch = BrowserClose
  /\ length ids <= MAX_THREAD_DEPTH.
Proof.
  intros w conversationId ids H. unfold getOldTweets in *.
  rewrite trace_bind in *.
  apply in_app_or in H as [H|H];
    [now apply getTweetIds_no_batch_fetch in H|].
  destruct (outcome (getTweetIds w conversationId)) as [e|ids'] eqn:Eo;
    [contradiction|].
  assert (Et : trace (response <- getTweetsByIds w ids' ;;
                      ret (getTweetsFromResponse response)) = [GetTweetsByIds ids]
               /\ ids' = ids).
  { unfold getTweetsByIds, bind, call, ret in *.
    destruct (has_token w); cbn [negb] in *; [|contradiction].
    destruct (api_tweets w ids'); cbn in *;
      destruct H as [H|[]]; inversion H; auto. }
  destruct Et as [Et ->]. rewrite Et. repeat split.
  - apply getTweetIds_returns in Eo as (Hl & _ & _).
    unfold getTweetIds. rewrite Hl.
    destruct (browser_newPage w), (page_goto w _), (page_evaluate w),
      (browser_close w); reflexivity.
  - apply getTweetIds_returns in Eo as (_ & _ & [-> | [_ ->]]);
      [cbn; lia|apply in_page_script_bounded].
Qed.

Lemma batch_fetch_follows_closed_browser_witness :
  outcome (getTweetIds Sample.stale_world (L "20")) = inr [L "20"; L "23"]
  /\ trace (getOldTweets Sample.stale_world (L "20"))
     = trace (getTweetIds Sample.stale_world (L "20"))
         ++ [GetTweetsByIds [L "20"; L "23"]]
  /\ last (trace (getTweetIds Sample.stale_world (L "20"))) Launch = BrowserClose
  /\ length [L "20"; L "23"] <= MAX_THREAD_DEPTH.
Proof.
  apply (batch_fetch_follows_closed_browser Sample.stale_world (L "20")
           [L "20"; L "23"]).
  cbn. auto 10.
Defined.

(** X10. On the stale path, when the browser works and the batch fetch
    answers, the thread is made of the posts of the batch response in the
    order of the response: they are not reversed, and the root post fetched
    before is not put in front of them.  The calls are, in order: launch,
    new page, navigation to the status page of the conversation, a wait of
    4000 ms, the in-page script, close, and the batch fetch of the scanned
    identifiers. *)
Theorem stale_thread_is_batch_response : forall w tweet conversationId response,
  older_than_7_days w (TweetData.created_at (Tweet.data tweet)) = true ->
  puppeteer_launch w = None ->
  scan_exception w conversationId = None ->
  browser_close w = None ->
  has_token w = true ->
  api_tweets w (in_page_script (page_document w)) = inr response ->
  thread_of w tweet conversationId
  = ([Launch; NewPage;
      Goto (L "https://twitter.com/anyone/status/" ++ conversationId);
      WaitFor 4000; Evaluate; BrowserClose;
      GetTweetsByIds (in_page_script (page_document w))],
     inr (getTweetsFromResponse response))
  /\ map Tweet.data (getTweetsFromResponse response) = Tweets.data response.
Proof.
  intros w tweet conversationId response Hold Hl Hs Hc Htok Hr.
  split; [|apply getTweetsFromResponse_data].
  unfold thread_of. rewrite Hold.
  unfold getOldTweets, getTweetIds, getTweetsByIds, scan_exception in *.
  rewrite Hl, Hc, Htok.
  destruct (browser_newPage w); [discriminate|].
  destruct (page_goto w _); [discriminate|].
  rewrite Hs. cbn. now rewrite Hr.
Qed.

Lemma stale_thread_is_batch_response_witness :
  thread_of Sample.stale_world Sample.root (L "20")
  = ([Launch; NewPage; Goto (L "https://twitter.com/anyone/status/" ++ L "20");
      WaitFor 4000; Evaluate; BrowserClose;
      GetTweetsByIds (in_page_script (page_document Sample.stale_world))],
     inr (getTweetsFromResponse
            (Tweets.mk [Sample.p1] (TweetIncludes.mk [Sample.jack] None)
                       (TweetMeta.mk 1))))
  /\ map Tweet.data
       (getTweetsFromResponse
          (Tweets.mk [Sample.p1] (TweetIncludes.mk [Sample.jack] None)
                     (TweetMeta.mk 1)))
     = [Sample.p1].
Proof.
  apply (stale_thread_is_batch_response Sample.stale_world Sample.root (L "20"));
    reflexivity.
Defined.

(** X11. What is outside the [try] block is not caught.  When
    [puppeteer.launch] throws, the fallback throws the same exception and
    does nothing else; when [browser.close] throws, the fallback throws that
    exception whatever the scan returned, so the identifiers are lost; and
    whenever the fallback throws, the stale path throws the same exception
    and makes no batch fetch. *)
Theorem failures_outside_try_propagate : forall w tweetId,
  (forall e, puppeteer_launch w = Some e ->
     getTweetIds w tweetId = ([Launch], inl e))
  /\ (forall c, puppeteer_launch w = None -> browser_close w = Some c ->
        outcome (getTweetIds w tweetId) = inl c)
  /\ (forall e, outcome (getTweetIds w tweetId) = inl e ->
        getOldTweets w tweetId = (trace (getTweetIds w tweetId), inl e)).
Proof.
  intros w tweetId. repeat split.
  - intros e H. unfold getTweetIds. now rewrite H.
  - intros c Hl Hc. unfold getTweetIds. rewrite Hl, Hc.
    destruct (browser_newPage w), (page_goto w _), (page_evaluate w); reflexivity.
  - intros e H. unfold getOldTweets.
    destruct (getTweetIds w tweetId) as [t r]. unfold outcome in H.
    cbn [snd] in H. now subst r.
Qed.

(** X12. The fallback navigates to no other page than the status page of
    the identifier it is given, and it runs the in-page script only after
    it has opened a page, navigated there and waited 4000 ms. *)
Theorem evaluate_follows_navigation : forall w tweetId,
  let pageURL := L "https://twitter.com/anyone/status/" ++ tweetId in
  (forall u, In (Goto u) (trace (getTweetIds w tweetId)) -> u = pageURL)
  /\ (In Evaluate (trace (getTweetIds w tweetId)) ->
      exists rest,
        trace (getTweetIds w tweetId)
        = [Launch; NewPage; Goto pageURL; WaitFor 4000; Evaluate] ++ rest).
Proof.
  intros w tweetId pageURL. subst pageURL. unfold getTweetIds. split.
  - intros u.
    destruct (puppeteer_launch w), (browser_newPage w), (page_goto w _),
      (page_evaluate w), (browser_close w); cbn;
      intros H; repeat (destruct H as [H|H]; try discriminate);
      try contradiction; now inversion H.
  - destruct (puppeteer_launch w), (browser_newPage w), (page_goto w _),
      (page_evaluate w), (browser_close w); cbn;
      intros H; repeat (destruct H as [H|H]; try discriminate);
      try contradiction; eexists; reflexivity.
Qed.

(** X13. The in-page script clicks on Show replies exactly when the
    document holds a [div[dir=auto]] whose first child is a SPAN that reads
    Show replies (a first child of another tag does not count): it then
    scans the [time] elements of the page as the click leaves it, and
    otherwise those of the page as it was loaded. *)
Theorem scan_after_show_replies : forall doc,
  (has_show_replies doc ->
   in_page_script doc = link_ids (firstn MAX_THREAD_DEPTH (Dom.timeNodes doc true)))
  /\ (~ has_show_replies doc ->
      in_page_script doc
      = link_ids (firstn MAX_THREAD_DEPTH (Dom.timeNodes doc false))).
Proof.
  intros doc. rewrite in_page_script_spec. unfold scanned_nodes, showRepliesButton.
  split; intros H.
  - destruct (find _ _) as [button|] eqn:E; [reflexivity|exfalso].
    destruct H as (div & child & Hin & Hc & Ht & Hi).
    assert (Hf : In div
                   (filter (fun node =>
                              match Dom.children0 node with
                              | Some ch => str_eqb (Dom.tagName ch) (L "SPAN")
                              | None => false
                              end) (Dom.autoDivs doc))).
    { apply filter_In. split; [exact Hin|]. rewrite Hc. now apply str_eqb_eq. }
    apply (find_none _ _ E) in Hf. rewrite Hc in Hf.
    apply str_eqb_eq in Hi. congruence.
  - destruct (find _ _) as [button|] eqn:E; [exfalso|reflexivity].
    apply find_some in E as [Hin Hi]. apply filter_In in Hin as [Hin Ht].
    apply H. destruct (Dom.children0 button) as [child|] eqn:Hc; [|discriminate].
    exists button, child. apply str_eqb_eq in Ht, Hi. auto.
Qed.

Example scan_of_expandable_page :
  in_page_script Sample.expandable_page = [L "20"; L "23"].
Proof. reflexivity. Qed.

(** ** The recent path, end to end *)

(** X14. A search that counts no result is not an error: whatever the
    response holds besides, the thread is the root post alone and the
    resolution returns the document of that one post. *)
Theorem empty_search_is_not_an_error :
  forall w url tweetId conversationId root author others users' thread,
  tweetIdFromStatusUrl url = Some tweetId ->
  outcome (fetch_root w tweetId) = inr (conversationId, root) ->
  author_filter (TweetData.author_id (Tweet.data root))
                (TweetIncludes.users (Tweet.includes root))
  = (author :: others, users') ->
  older_than_7_days w (TweetData.created_at (Tweet.data root)) = false ->
  api_search w conversationId = inr thread ->
  TweetMeta.result_count (Tweets.meta thread) = 0%Z ->
  let tweet :=
    Tweet.mk (Tweet.data root)
      (TweetIncludes.mk users' (TweetIncludes.media (Tweet.includes root))) in
  outcome (getRecentTweets w conversationId) = inr []
  /\ outcome (preHandle w url)
     = inr (mkResult (document_of w url author (Tweet.data root) [tweet]) url
                     (escape (titleForAuthor author)))
  /\ tweetsContent url [tweet] = tweet_html url tweet.
Proof.
  intros w url tweetId conversationId root author others users' thread
         Hid Hroot Hauthor Hage Hs Hz tweet.
  pose proof (fetch_root_needs_token _ _ _ Hroot) as Htok.
  assert (Hrecent : getRecentTweets w conversationId
                    = ([GetTweetThread conversationId], inr [])).
  { unfold getRecentTweets, getTweetThread, bind, call, ret.
    rewrite Htok, Hs. cbn [negb]. now rewrite Hz. }
  repeat split.
  - now rewrite Hrecent.
  - rewrite (preHandle_unfold _ _ _ Hid), outcome_bind, Hroot.
    cbn beta iota zeta. rewrite Hauthor, outcome_bind.
    unfold thread_of. cbn [Tweet.data]. rewrite Hage, Hrecent. reflexivity.
Qed.

Lemma empty_search_is_not_an_error_witness :
  outcome (getRecentTweets Sample.quiet_world (L "20")) = inr []
  /\ outcome (preHandle Sample.quiet_world (L "https://twitter.com/jack/status/20"))
     = inr (mkResult
              (document_of Sample.quiet_world
                 (L "https://twitter.com/jack/status/20")
                 (User.set_id (L "12") Sample.jack) Sample.root_data
                 [Tweet.mk Sample.root_data
                    (TweetIncludes.mk [User.set_id (L "12") Sample.jack] None)])
              (L "https://twitter.com/jack/status/20")
              (escape (titleForAuthor (User.set_id (L "12") Sample.jack))))
  /\ tweetsContent (L "https://twitter.com/jack/status/20")
       [Tweet.mk Sample.root_data
          (TweetIncludes.mk [User.set_id (L "12") Sample.jack] None)]
     = tweet_html (L "https://twitter.com/jack/status/20")
         (Tweet.mk Sample.root_data
            (TweetIncludes.mk [User.set_id (L "12") Sample.jack] None)).
Proof.
  exact (empty_search_is_not_an_error Sample.quiet_world
           (L "https://twitter.com/jack/status/20") (L "20") (L "20") Sample.root
           (User.set_id (L "12") Sample.jack) []
           [User.set_id (L "12") Sample.jack] Sample.empty_search
           eq_refl eq_refl eq_refl eq_refl eq_refl eq_refl).
Defined.

(** ** The rendered document *)

Lemma substitution_of_absent_urls : forall urls text,
  (forall e, In e urls -> includes (UrlObj.url e) text = false) ->
  fold_left (fun text urlObj => js_replace text (UrlObj.url urlObj) (anchor urlObj))
            urls text
  = text.
Proof.
  induction urls as [|e urls IH]; intros text H; [reflexivity|].
  cbn [fold_left]. rewrite js_replace_absent.
  - apply IH. intros e' He'. apply H. now right.
  - specialize (H e (or_introl eq_refl)). unfold includes in H.
    now destruct (indexOf (UrlObj.url e) text).
Qed.

(** X16. An url entity whose url does not occur in the text of the post
    changes nothing: when none of the entities occurs, the paragraph holds
    the text as it is. *)
Theorem render_text_absent_urls : forall tweetData urls,
  TweetData.entities tweetData = Some urls ->
  (forall e, In e urls ->
     includes (UrlObj.url e) (TweetData.text tweetData) = false) ->
  render_text tweetData = TweetData.text tweetData.
Proof.
  intros tweetData urls He H. unfold render_text. rewrite He.
  now apply substitution_of_absent_urls.
Qed.

Lemma render_text_absent_urls_witness :
  render_text Sample.absent_entity_post = L "no link in here".
Proof.
  apply (render_text_absent_urls Sample.absent_entity_post [Sample.entity_a]);
    [reflexivity|].
  intros e [<-|[]]. reflexivity.
Defined.

(** X17. The image of the document is the profile image of the author
    with the first [_normal] of its url replaced by [_400x400] (a second
    one is kept), or the url as it is when it holds no [_normal]; it is
    the value of both [og:image] and [og:image:secure_url], at the start of
    the head. *)
Theorem author_image_upscaled : forall w url author tweetData tweets,
  let profile := User.profile_image_url author in
  let image := js_replace profile (L "_normal") (L "_400x400") in
  (exists rest,
     document_of w url author tweetData tweets
     = NL ++ spaces 4 ++ L "<head>" ++ NL
         ++ spaces 6 ++ meta_tag (L "og:image") image ++ NL
         ++ spaces 6 ++ meta_tag (L "og:image:secure_url") image ++ rest)
  /\ (forall a b,
        profile = a ++ L "_normal" ++ b ->
        first_occurrence (L "_normal") a ->
        image = a ++ L "_400x400" ++ b)
  /\ (includes (L "_normal") profile = false -> image = profile).
Proof.
  intros w url author tweetData tweets profile image. subst profile image.
  repeat split.
  - unfold document_of, render_content. eexists. reflexivity.
  - intros a b Hp Hf. rewrite Hp, js_replace_first_occurrence by exact Hf.
    now rewrite getSubstitution_dollar_free.
  - intros H. apply js_replace_absent. unfold includes in H.
    now destruct (indexOf (L "_normal") (User.profile_image_url author)).
Qed.

Example image_of_jack :
  js_replace (User.profile_image_url Sample.jack) (L "_normal") (L "_400x400")
  = L "https://pbs.twimg.com/p/jack_400x400.jpg".
Proof. reflexivity. Qed.

Example image_with_two_normal :
  js_replace (L "a_normal_normal.jpg") (L "_normal") (L "_400x400")
  = L "a_400x400_normal.jpg".
Proof. reflexivity. Qed.



(** ** A resolution that starts from a reply *)



